(** * ring.hpp: a resizable circular buffer over raw storage

    Shallow embedding of [src/ring.hpp] (class [ring<T, Allocator>]) and the
    properties of its public operations.

    Memory model.  A [T*] is an address counted in units of [T], so that
    [p + 1] is the next slot; [nullptr] is address [0].  The objects of type
    [T] that are currently constructed in storage obtained by the ring are
    kept in a finite map from addresses to values: placement [new (p) T{v}]
    inserts at [p], [p->~T()] deletes at [p], and reading [*p] where no
    object lives is undefined behaviour.  [std::size_t] values are integers
    in [[0, 2^64)]; the places where the source mixes [std::ptrdiff_t] and
    [std::size_t] have the conversion written out as [to_size_t].  The
    allocator is an oracle: each call that may allocate takes the result that
    [allocator.allocate] gives ([None] when it throws [std::bad_alloc]);
    [allocator.deallocate] removes whatever objects the released storage
    still had.  A loop of the source is a recursive function with fuel, and
    the fuel it is given is shown to be enough. *)

From Stdlib Require Import ZArith Lia.
From stdpp Require Import base option list gmap.

Local Open Scope Z_scope.

Abbreviation ptr := Z (only parsing).

Definition nullptr : ptr := 0.

Definition size_modulus : Z := 2 ^ 64.

(** Conversion of an integer to [std::size_t]. *)
Definition to_size_t (z : Z) : Z := z mod size_modulus.

(** The data members of [ring] (the stateless allocator member is left out),
    together with the constructed objects. *)
Record ring (T : Type) : Type := Ring {
  capacity_ : Z;
  data_end_ : ptr;
  lower_bond_ : ptr;
  upper_bond_ : ptr;
  objects : gmap Z T
}.

Arguments Ring {T} _ _ _ _ _.
Arguments capacity_ {T} _.
Arguments data_end_ {T} _.
Arguments lower_bond_ {T} _.
Arguments upper_bond_ {T} _.
Arguments objects {T} _.

(** How a call of a member function ends. *)
Inductive outcome (T A : Type) : Type :=
| Returned (a : A) (r : ring T)
    (* normal return with value [a], the ring left as [r] *)
| Raised (r : ring T)
    (* [std::bad_alloc] leaves the call; [r] is the ring as the throw leaves it *)
| Undefined.
    (* undefined behaviour: a slot without an object is read, or a loop runs
       off the storage *)

Arguments Returned {T A} _ _.
Arguments Raised {T A} _.
Arguments Undefined {T A}.

Section Ring.

Context {T : Type}.

Implicit Types (r : ring T) (m : gmap Z T) (q : list T).

(** [data_end_ - capacity_], the first slot of the storage. *)
Definition data_begin r : ptr := data_end_ r - capacity_ r.

(** [ring()] *)
Definition ring_default : ring T := Ring 0 nullptr nullptr nullptr ∅.

(** [ring(const std::size_t capacity)]; [alloc] is what
    [allocator.allocate(capacity_)] gives.  [None]: the constructor throws and
    no ring exists. *)
Definition ring_sized (capacity : Z) (alloc : option Z) : option (ring T) :=
  match alloc with
  | None => None
  | Some p =>
      let data_end := p + capacity in
      Some (Ring capacity data_end (data_end - capacity) data_end ∅)
  end.

(** [full()] *)
Definition full r : bool := upper_bond_ r =? lower_bond_ r.

(** [empty()] *)
Definition empty r : bool := upper_bond_ r =? data_end_ r.

(** [capacity()] *)
Definition capacity r : Z := capacity_ r.

(** [size()] *)
Definition size r : Z :=
  if negb (upper_bond_ r =? data_end_ r) then
    if upper_bond_ r >? lower_bond_ r then
      to_size_t (upper_bond_ r - lower_bond_ r)
    else
      to_size_t (upper_bond_ r + capacity_ r - lower_bond_ r)
  else 0.

(** [unset_empty()] *)
Definition unset_empty r : ring T :=
  if upper_bond_ r =? data_end_ r then
    let upper := data_end_ r - capacity_ r in
    Ring (capacity_ r) (data_end_ r) upper upper (objects r)
  else r.

(** The body shared by both [push] overloads after [unset_empty()]:
    [new (upper_bond_++) T{ item }] and the wrap of [upper_bond_]. *)
Definition place_back r (item : T) : ring T :=
  let m := <[upper_bond_ r := item]> (objects r) in
  let upper := upper_bond_ r + 1 in
  let upper := if upper =? data_end_ r then data_end_ r - capacity_ r else upper in
  Ring (capacity_ r) (data_end_ r) (lower_bond_ r) upper m.

(** [push(TT&& item)] *)
Definition push r (item : T) : ring T := place_back (unset_empty r) item.

(** [pop()] *)
Definition pop r : outcome T T :=
  match objects r !! lower_bond_ r with
  | None => Undefined
  | Some item =>
      let m := delete (lower_bond_ r) (objects r) in
      let lower := lower_bond_ r + 1 in
      let lower := if lower =? data_end_ r then data_end_ r - capacity_ r else lower in
      let upper := if lower =? upper_bond_ r then data_end_ r else upper_bond_ r in
      Returned item (Ring (capacity_ r) (data_end_ r) lower upper m)
  end.

(** [data()] is not embedded.  Its two return statements give the
    [std::array] of two pointer pairs a single level of braces, so the first
    inner list initialises the array member and a pair would be built from
    one pointer, with the second list left over: the member function is
    ill-formed as soon as it is instantiated, and no program can call it. *)

(** [while (p != target) { (--p)->~T(); }] *)
Fixpoint destroy_down (fuel : nat) m (p target : ptr) : option (gmap Z T * ptr) :=
  if p =? target then Some (m, p)
  else
    match fuel with
    | O => None
    | S fuel => destroy_down fuel (delete (p - 1) m) (p - 1) target
    end.

(** The loop that relocates a run of objects: while [lower_bond_ < bound],
    move-construct the object under [lower_bond_] into [it++], then destroy
    the source and step [lower_bond_++]. *)
Fixpoint move_up (fuel : nat) m (lower it bound : ptr)
  : option (gmap Z T * ptr * ptr) :=
  if lower <? bound then
    match fuel with
    | O => None
    | S fuel =>
        match m !! lower with
        | None => None
        | Some x =>
            move_up fuel (delete lower (<[it := x]> m)) (lower + 1) (it + 1) bound
        end
    end
  else Some (m, lower, it).

(** The two truncation branches of [reserve]: the result is the objects,
    [upper_bond_] and [first_upper_bond] after them.  No loop of [reserve]
    can take more steps than the storage has slots without leaving it, which
    is the fuel given to each. *)
Definition reserve_truncate r (size : Z) (first_upper_bond : ptr)
  : option (gmap Z T * ptr * ptr) :=
  let fuel := Z.to_nat (capacity_ r) in
  if to_size_t (first_upper_bond - lower_bond_ r) >? size then
    '(m, _) ←
      (if negb (first_upper_bond =? upper_bond_ r)
       then destroy_down fuel (objects r) (upper_bond_ r) (data_begin r)
       else Some (objects r, upper_bond_ r));
    let upper := lower_bond_ r + size in
    '(m, first_upper_bond) ← destroy_down fuel m first_upper_bond upper;
    Some (m, upper, first_upper_bond)
  else if (lower_bond_ r >=? upper_bond_ r)
          && (to_size_t (capacity_ r - (lower_bond_ r - upper_bond_ r)) >? size)
  then
    let second_upper_bond := lower_bond_ r - to_size_t (capacity_ r - size) in
    '(m, upper) ← destroy_down fuel (objects r) (upper_bond_ r) second_upper_bond;
    Some (m, upper, first_upper_bond)
  else Some (objects r, upper_bond_ r, first_upper_bond).

(** [allocator.deallocate(p, n)]: the storage is released, and with it
    ends the life of any object that was still in it. *)
Definition deallocate m (p : ptr) (n : Z) : gmap Z T :=
  filter (λ slot_object, ¬ (p ≤ slot_object.1 < p + n)) m.

(** [reserve(const std::size_t size)]; [alloc] is what
    [allocator.allocate(size)] gives if it is called.  [finish] is the end
    of the function, from [if (data_begin)] on. *)
Definition reserve r (size : Z) (alloc : option Z) : outcome T unit :=
  if negb (capacity_ r =? size) then
    match (if size =? 0 then Some nullptr else alloc) with
    | None => Raised r
    | Some data =>
        let fuel := Z.to_nat (capacity_ r) in
        let finish m upper :=
          let m :=
            if negb (data_begin r =? nullptr)
            then deallocate m (data_begin r) (capacity_ r) else m in
          Returned tt (Ring size (data + size) data upper m) in
        if negb (upper_bond_ r =? data_end_ r) then
          let first_upper_bond :=
            if lower_bond_ r <? upper_bond_ r then upper_bond_ r else data_end_ r in
          match reserve_truncate r size first_upper_bond with
          | None => Undefined
          | Some (m, upper, first_upper_bond) =>
              match move_up fuel m (lower_bond_ r) data first_upper_bond with
              | None => Undefined
              | Some (m, lower, it) =>
                  let lower := if lower >? upper then data_begin r else lower in
                  match move_up fuel m lower it upper with
                  | None => Undefined
                  | Some (m, _, it) => finish m it
                  end
              end
          end
        else finish (objects r) (data + size)
    end
  else Returned tt r.

End Ring.

Section Bulk.

Context {T : Type}.

(** The conversion that [T{ begin++ }] selects in the range overload of
    [push]: the initialiser is the pointer, not the element it points to. *)
Variable T_from_pointer : ptr → T.

(** The loop of the range overload of [push], from [begin] to [end]. *)
Fixpoint push_range_loop (fuel : nat) (r : ring T) (begin end_ : ptr)
  : option (ring T) :=
  if negb (begin =? end_) then
    match fuel with
    | O => None
    | S fuel =>
        push_range_loop fuel (place_back r (T_from_pointer begin)) (begin + 1) end_
    end
  else Some r.

(** The range overload [push(begin, end)].  The loop stops after
    [end - begin] steps or never reaches [end]. *)
Definition push_range (r : ring T) (begin end_ : ptr) : outcome T unit :=
  match push_range_loop (Z.to_nat (end_ - begin)) (unset_empty r) begin end_ with
  | Some r' => Returned tt r'
  | None => Undefined
  end.

End Bulk.

(** * Well-formed rings, the queue a ring holds, and what is observed *)

Section Specification.

Context {T : Type}.

Implicit Types (r : ring T) (m : gmap Z T) (q : list T).

(** The pointers of a ring lie in its storage, and [lower_bond_] is a slot
    of it unless there is none. *)
Record wf r : Prop := Wf {
  wf_capacity : 0 ≤ capacity_ r < size_modulus;
  wf_lower : data_begin r ≤ lower_bond_ r ≤ data_end_ r;
  wf_lower_slot : 0 < capacity_ r → lower_bond_ r < data_end_ r;
  wf_upper : data_begin r ≤ upper_bond_ r ≤ data_end_ r
}.

(** Number of slots from [lower_bond_] round to [upper_bond_]. *)
Definition count r : Z :=
  if upper_bond_ r =? data_end_ r then 0
  else if lower_bond_ r <? upper_bond_ r then upper_bond_ r - lower_bond_ r
  else upper_bond_ r + capacity_ r - lower_bond_ r.

(** Address of the [i]-th slot after [lower_bond_], round the storage. *)
Definition slot r (i : Z) : ptr :=
  if lower_bond_ r + i <? data_end_ r then lower_bond_ r + i
  else lower_bond_ r + i - capacity_ r.

(** [holds r q]: the ring is well formed and the objects from [lower_bond_]
    round to [upper_bond_] are the elements of [q], front first. *)
Definition holds r q : Prop :=
  wf r ∧ Z.of_nat (length q) = count r ∧
  ∀ (i : nat) x, q !! i = Some x → objects r !! slot r (Z.of_nat i) = Some x.

(** What [allocator.allocate(n)] may give while the ring has its storage:
    a block of [n] slots that does not meet it. *)
Definition fresh r (n : Z) (alloc : option Z) : Prop :=
  match alloc with
  | Some a => a + n ≤ data_begin r ∨ data_end_ r ≤ a
  | None => True
  end.

(** States a ring goes through when it is built by a constructor and then
    used by [push] while not full, [pop] while not empty, and [reserve]. *)
Inductive reachable : ring T → Prop :=
| reach_default : reachable ring_default
| reach_sized c a r :
    0 ≤ c < size_modulus → ring_sized c (Some a) = Some r → reachable r
| reach_push r x : reachable r → full r = false → reachable (push r x)
| reach_pop r x r' :
    reachable r → empty r = false → pop r = Returned x r' → reachable r'
| reach_reserve r n alloc r' :
    reachable r → 0 ≤ n < size_modulus → fresh r n alloc →
    reserve r n alloc = Returned tt r' → reachable r'.

(** The same, with the range overload of [push] used on ranges that are no
    longer than the free space. *)
Inductive reachable_bulk (T_from_pointer : ptr → T) : ring T → Prop :=
| bulk_default : reachable_bulk T_from_pointer ring_default
| bulk_sized c a r :
    0 ≤ c < size_modulus → ring_sized c (Some a) = Some r →
    reachable_bulk T_from_pointer r
| bulk_push r x :
    reachable_bulk T_from_pointer r → full r = false →
    reachable_bulk T_from_pointer (push r x)
| bulk_push_range r begin end_ r' :
    reachable_bulk T_from_pointer r →
    0 ≤ end_ - begin ≤ capacity r - size r →
    push_range T_from_pointer r begin end_ = Returned tt r' →
    reachable_bulk T_from_pointer r'
| bulk_pop r x r' :
    reachable_bulk T_from_pointer r → empty r = false →
    pop r = Returned x r' → reachable_bulk T_from_pointer r'
| bulk_reserve r n alloc r' :
    reachable_bulk T_from_pointer r → 0 ≤ n < size_modulus →
    fresh r n alloc → reserve r n alloc = Returned tt r' →
    reachable_bulk T_from_pointer r'.

(** A sequence of calls of [push] and [pop]. *)
Inductive op : Type := Push (x : T) | Pop.

(** Run the calls in order; the values the [pop]s return, oldest first. *)
Fixpoint run r (ops : list op) : option (list T * ring T) :=
  match ops with
  | [] => Some ([], r)
  | Push x :: ops => run (push r x) ops
  | Pop :: ops =>
      match pop r with
      | Returned x r' => '(outs, r'') ← run r' ops; Some (x :: outs, r'')
      | _ => None
      end
  end.

(** Every [push] of the sequence is called when [!full()] and every [pop]
    when [!empty()].  After a [pop] that does not return there is no ring
    left to test. *)
Fixpoint respects r (ops : list op) : bool :=
  match ops with
  | [] => true
  | Push x :: ops => negb (full r) && respects (push r x) ops
  | Pop :: ops =>
      negb (empty r) &&
      match pop r with
      | Returned _ r' => respects r' ops
      | _ => true
      end
  end.

(** The values given to [push], in call order. *)
Fixpoint pushed (ops : list op) : list T :=
  match ops with
  | [] => []
  | Push x :: ops => x :: pushed ops
  | Pop :: ops => pushed ops
  end.

(** Number of [pop] calls. *)
Fixpoint pops (ops : list op) : nat :=
  match ops with
  | [] => O
  | Push _ :: ops => pops ops
  | Pop :: ops => S (pops ops)
  end.

(** Number of [push] calls. *)
Definition pushes (ops : list op) : nat := length (pushed ops).

(** [while (!r.empty()) out.push_back(r.pop());] *)
Fixpoint drain (fuel : nat) r : option (list T) :=
  if empty r then Some []
  else
    match fuel with
    | O => None
    | S fuel =>
        match pop r with
        | Returned x r' => xs ← drain fuel r'; Some (x :: xs)
        | _ => None
        end
    end.

(** The values that successive [pop]s return until the ring is empty; a
    ring never holds more than [capacity_] elements. *)
Definition pop_all r : option (list T) := drain (Z.to_nat (capacity_ r)) r.

(** Repeated single pushes, in order. *)
Definition push_each r (items : list T) : ring T := fold_left push items r.

(** The elements of the caller's range from [begin] to [end], [deref p]
    being the element that [p] points to. *)
Definition range_items (deref : ptr → T) (begin end_ : ptr) : list T :=
  deref <$> seqZ begin (end_ - begin).

End Specification.

Arguments op : clear implicits.

(** * The destructor, and where the objects are *)

Section Destructor.

Context {T : Type}.

Implicit Types (r : ring T) (m : gmap Z T).

(** The loop of the destructor, [while (p != target) { p++->~T(); }], with
    the values destroyed kept in order; a destructor call where no object
    lives is undefined. *)
Fixpoint destroy_up (fuel : nat) m (p target : ptr)
  : option (list T * gmap Z T) :=
  if negb (p =? target) then
    match fuel with
    | O => None
    | S fuel =>
        match m !! p with
        | None => None
        | Some x =>
            '(destroyed, m) ← destroy_up fuel (delete p m) (p + 1) target;
            Some (x :: destroyed, m)
        end
    end
  else Some ([], m).

(** [~ring()] up to its call of [deallocate]: the values destroyed, in
    order, and the objects that are then still alive. *)
Definition destroy_elements r : option (list T * gmap Z T) :=
  let fuel := Z.to_nat (capacity_ r) in
  if negb (upper_bond_ r =? data_end_ r) then
    '(first, m, lower) ←
      (if lower_bond_ r >=? upper_bond_ r then
         '(destroyed, m) ←
           destroy_up fuel (objects r) (lower_bond_ r) (data_end_ r);
         Some (destroyed, m, data_end_ r - capacity_ r)
       else Some ([], objects r, lower_bond_ r));
    '(second, m) ← destroy_up fuel m lower (upper_bond_ r);
    Some (first ++ second, m)
  else Some ([], objects r).

(** [~ring()]: the values destroyed, in order, and the objects left once
    the storage is released. *)
Definition ring_destructor r : option (list T * gmap Z T) :=
  '(destroyed, m) ← destroy_elements r;
  Some (destroyed, deallocate m (data_end_ r - capacity_ r) (capacity_ r)).

(** [a] is a slot between [lower_bond_] and [upper_bond_], round the
    storage. *)
Definition live_slot r (a : ptr) : Prop :=
  upper_bond_ r ≠ data_end_ r ∧
  if lower_bond_ r <? upper_bond_ r then lower_bond_ r ≤ a < upper_bond_ r
  else lower_bond_ r ≤ a < data_end_ r ∨ data_begin r ≤ a < upper_bond_ r.

(** Every object is in a live slot. *)
Definition tidy r : Prop := ∀ a x, objects r !! a = Some x → live_slot r a.

(** States reached from a constructor by [push] while not full, [pop] while
    not empty, and [reserve] with a capacity above [size()], or 0, or the
    capacity the ring has. *)
Inductive reachable_with_room : ring T → Prop :=
| room_default : reachable_with_room ring_default
| room_sized c a r :
    0 ≤ c < size_modulus → ring_sized c (Some a) = Some r →
    reachable_with_room r
| room_push r x :
    reachable_with_room r → full r = false → reachable_with_room (push r x)
| room_pop r x r' :
    reachable_with_room r → empty r = false → pop r = Returned x r' →
    reachable_with_room r'
| room_reserve r n alloc r' :
    reachable_with_room r → 0 ≤ n < size_modulus →
    size r < n ∨ n = 0 ∨ n = capacity r →
    fresh r n alloc → reserve r n alloc = Returned tt r' →
    reachable_with_room r'.

End Destructor.

(** * Sample rings *)

(** [ring<T> r(3)] with storage at address 100. *)
Definition ring3 : ring Z := Ring 3 103 100 103 ∅.

(** The ring left by a run of [ops] on [r] ([r] itself where a [pop] is
    undefined). *)
Definition ring_after (r : ring Z) (ops : list (op Z)) : ring Z :=
  match run r ops with
  | Some (_, r') => r'
  | None => r
  end.

(** [push 1; push 2; push 3; pop; pop; push 4]: the elements 3 and 4 wrap
    round the end of the storage. *)
Definition wrapped_ring : ring Z :=
  ring_after ring3 [Push 1; Push 2; Push 3; Pop; Pop; Push 4].

(** The ring that [reserve(n)] leaves, [a] being the address the allocator
    gives ([r] itself if [reserve] does not return). *)
Definition reserved (r : ring Z) (n a : Z) : ring Z :=
  match reserve r n (Some a) with
  | Returned _ r' => r'
  | _ => r
  end.

(** * Proofs *)

Ltac case_cmp :=
  repeat match goal with
  | H : context [Z.gtb ?a ?b] |- _ => rewrite (Z.gtb_ltb a b) in H
  | H : context [Z.geb ?a ?b] |- _ => rewrite (Z.geb_leb a b) in H
  | |- context [Z.gtb ?a ?b] => rewrite (Z.gtb_ltb a b)
  | |- context [Z.geb ?a ?b] => rewrite (Z.geb_leb a b)
  | H : context [Z.eqb ?a ?b] |- _ => destruct (Z.eqb_spec a b)
  | H : context [Z.ltb ?a ?b] |- _ => destruct (Z.ltb_spec a b)
  | H : context [Z.leb ?a ?b] |- _ => destruct (Z.leb_spec a b)
  | |- context [Z.eqb ?a ?b] => destruct (Z.eqb_spec a b)
  | |- context [Z.ltb ?a ?b] => destruct (Z.ltb_spec a b)
  | |- context [Z.leb ?a ?b] => destruct (Z.leb_spec a b)
  end.

Lemma size_modulus_pos : 0 < size_modulus.
Proof. done. Qed.

Lemma to_size_t_small z : 0 ≤ z < size_modulus → to_size_t z = z.
Proof. intros. unfold to_size_t. by apply Z.mod_small. Qed.

Section Invariant.

Context {T : Type}.

Implicit Types (r : ring T) (m : gmap Z T) (q : list T).

Lemma size_count r : wf r → size r = count r.
Proof.
  intros [Hc Hl Hs Hu]. unfold size, count, data_begin in *.
  case_cmp; simpl; try lia; apply to_size_t_small; lia.
Qed.

Lemma holds_size r q : holds r q → size r = Z.of_nat (length q).
Proof. intros (Hwf & Hn & _). by rewrite size_count. Qed.

Lemma holds_length_bound r q : holds r q → Z.of_nat (length q) ≤ capacity_ r.
Proof.
  intros ([Hc Hl Hs Hu] & Hn & _). rewrite Hn.
  unfold count, data_begin in *. case_cmp; lia.
Qed.

Lemma holds_empty r q : holds r q → empty r = true ↔ q = [].
Proof.
  intros ([Hc Hl Hs Hu] & Hn & _). unfold empty, count, data_begin in *.
  rewrite <- length_zero_iff_nil. case_cmp; split; intros; try done; lia.
Qed.

Lemma holds_full r q :
  holds r q → full r = true ↔ Z.of_nat (length q) = capacity_ r.
Proof.
  intros ([Hc Hl Hs Hu] & Hn & _). unfold full, count, data_begin in *.
  rewrite Hn. case_cmp; split; intros; try done; lia.
Qed.

Lemma holds_default : holds (@ring_default T) [].
Proof.
  pose proof size_modulus_pos.
  split_and!; [by constructor; unfold data_begin; cbn; lia | done |].
  intros i x Hi. by rewrite lookup_nil in Hi.
Qed.

Lemma holds_sized (c a : Z) r :
  0 ≤ c < size_modulus → ring_sized c (Some a) = Some r → holds r [].
Proof.
  intros Hc [= <-]. split_and!.
  - constructor; unfold data_begin; cbn; lia.
  - unfold count; cbn. case_cmp; lia.
  - intros i x Hi. by rewrite lookup_nil in Hi.
Qed.

Lemma holds_push r q x :
  holds r q → full r = false → holds (push r x) (q ++ [x]).
Proof.
  intros ([Hc Hl Hs Hu] & Hn & Hq) Hf.
  destruct r as [c e l u m].
  unfold full, push, unset_empty, place_back, count, data_begin in *; cbn in *.
  assert (Hlen : Z.of_nat (length (q ++ [x])) = Z.of_nat (length q) + 1)
    by (rewrite length_app; cbn; lia).
  split_and!.
  - constructor; unfold data_begin; case_cmp; cbn in *; lia.
  - rewrite Hlen, Hn. unfold count. case_cmp; cbn in *; case_cmp; lia.
  - intros i y Hi. unfold slot.
    destruct (decide (i < length q)%nat) as [Hlt|Hge].
    + rewrite lookup_app_l in Hi by done. apply Hq in Hi.
      unfold slot in Hi.
      assert (Z.of_nat i < Z.of_nat (length q)) by lia.
      case_cmp; cbn in *; case_cmp; try lia;
        (rewrite lookup_insert_ne by lia; exact Hi).
    + assert (i = length q) as ->.
      { apply lookup_lt_Some in Hi. rewrite length_app in Hi. cbn in Hi. lia. }
      rewrite lookup_app_r, Nat.sub_diag in Hi by done. injection Hi as ->.
      case_cmp; cbn in *; case_cmp; try lia;
        match goal with |- <[?a := _]> _ !! ?b = _ =>
          replace b with a by lia; apply lookup_insert_eq end.
Qed.

Lemma holds_pop r q :
  holds r q → empty r = false →
  ∃ x q' r', q = x :: q' ∧ pop r = Returned x r' ∧ holds r' q'.
Proof.
  intros ([Hc Hl Hs Hu] & Hn & Hq) He.
  destruct r as [c e l u m].
  unfold empty, pop, count, data_begin in *; cbn in *.
  destruct q as [|x q'].
  { cbn in Hn. case_cmp; try done; lia. }
  exists x, q'.
  pose proof (Hq 0%nat x eq_refl) as H0. unfold slot in H0; cbn in H0.
  assert (Hlen : Z.of_nat (length (x :: q')) = Z.of_nat (length q') + 1)
    by (cbn; lia).
  rewrite Hlen in Hn.
  assert (l < e) by (case_cmp; try done; lia).
  change (Z.of_nat 0) with 0 in H0. rewrite Z.add_0_r in H0.
  destruct (Z.ltb_spec l e); [|lia].
  rewrite H0. eexists. split; [done|]. split; [reflexivity|].
  split; [|split].
  - constructor; unfold data_begin; cbn; case_cmp; cbn in *; lia.
  - unfold count; cbn. case_cmp; cbn in *; case_cmp; lia.
  - intros i y Hi. unfold slot; cbn.
    pose proof (lookup_lt_Some _ _ _ Hi) as Hlt.
    specialize (Hq (S i) y Hi). unfold slot in Hq; cbn in Hq.
    replace (l + Z.of_nat (S i)) with (l + 1 + Z.of_nat i) in Hq by lia.
    case_cmp; cbn in *; case_cmp; try lia;
      (rewrite lookup_delete_ne by lia);
      first [exact Hq | match goal with |- _ !! ?b = _ =>
        match type of Hq with _ !! ?a = _ => replace b with a by lia; exact Hq end end].
Qed.

Lemma drain_holds fuel r q :
  holds r q → (length q ≤ fuel)%nat → drain fuel r = Some q.
Proof.
  revert r q. induction fuel as [|fuel IH]; intros r q Hr Hlen.
  - destruct q; [|cbn in Hlen; lia].
    cbn. by rewrite (proj2 (holds_empty _ _ Hr) eq_refl).
  - cbn. destruct (empty r) eqn:He.
    + by rewrite (proj1 (holds_empty _ _ Hr) He).
    + destruct (holds_pop _ _ Hr He) as (x & q' & r' & -> & -> & Hr').
      rewrite (IH r' q' Hr') by (cbn in Hlen; lia). done.
Qed.

Lemma pop_all_holds r q : holds r q → pop_all r = Some q.
Proof.
  intros Hr. apply drain_holds; [done|].
  pose proof (holds_length_bound _ _ Hr). lia.
Qed.

Lemma run_holds r q ops :
  holds r q → respects r ops = true →
  ∃ outs r' q',
    run r ops = Some (outs, r') ∧ holds r' q' ∧
    q ++ pushed ops = outs ++ q' ∧ length outs = pops ops.
Proof.
  revert r q. induction ops as [|[x|] ops IH]; intros r q Hr Hok; cbn in *.
  - exists [], r, q. by rewrite app_nil_r.
  - apply andb_prop in Hok as [Hf Hok]. apply negb_true_iff in Hf.
    destruct (IH _ _ (holds_push _ _ x Hr Hf) Hok)
      as (outs & r' & q' & Hrun & Hr' & Heq & Hn).
    exists outs, r', q'. split_and!; try done.
    by rewrite <- Heq, <- app_assoc.
  - apply andb_prop in Hok as [He Hok]. apply negb_true_iff in He.
    destruct (holds_pop _ _ Hr He) as (x & q1 & r1 & -> & Hpop & Hr1).
    rewrite Hpop in *.
    destruct (IH _ _ Hr1 Hok) as (outs & r' & q' & Hrun & Hr' & Heq & Hn).
    exists (x :: outs), r', q'. rewrite Hrun. cbn.
    split_and!; try done; [by rewrite Heq | by rewrite Hn].
Qed.

(** ** The loops of [reserve] *)

Lemma destroy_down_spec fuel m p t m' p' :
  destroy_down fuel m p t = Some (m', p') →
  t ≤ p ∧ p' = t ∧ ∀ a, a < t ∨ p ≤ a → m' !! a = m !! a.
Proof.
  revert m p. induction fuel as [|fuel IH]; intros m p H; cbn in H;
    destruct (Z.eqb_spec p t) as [Heq|Hne]; try done.
  - simplify_eq. split_and!; [lia | done | done].
  - simplify_eq. split_and!; [lia | done | done].
  - apply IH in H as (Hle & -> & Hm). split_and!; [lia | done |].
    intros a Ha. rewrite Hm by lia. apply lookup_delete_ne. lia.
Qed.

Lemma destroy_down_total fuel m p t :
  t ≤ p → p - t ≤ Z.of_nat fuel → is_Some (destroy_down fuel m p t).
Proof.
  revert m p. induction fuel as [|fuel IH]; intros m p Hle Hfuel; cbn;
    destruct (Z.eqb_spec p t) as [Heq|Hne]; try done; try lia.
  apply IH; lia.
Qed.

Lemma move_up_pointers fuel m l it bound m' l' it' :
  move_up fuel m l it bound = Some (m', l', it') →
  l' = Z.max l bound ∧ it' = it + (l' - l).
Proof.
  revert m l it. induction fuel as [|fuel IH]; intros m l it H; cbn in H;
    destruct (Z.ltb_spec l bound) as [Hlt|Hge]; try done.
  - simplify_eq. lia.
  - destruct (m !! l) as [x|]; [|done].
    apply IH in H as [-> ->]. lia.
  - simplify_eq. lia.
Qed.

Lemma move_up_objects fuel m l it bound m' l' it' :
  move_up fuel m l it bound = Some (m', l', it') →
  it + (bound - l) ≤ l ∨ bound ≤ it →
  (∀ k, 0 ≤ k < bound - l → m' !! (it + k) = m !! (l + k)) ∧
  (∀ a, ¬ l ≤ a < bound → ¬ it ≤ a < it + (bound - l) → m' !! a = m !! a).
Proof.
  revert m l it. induction fuel as [|fuel IH]; intros m l it H Hd; cbn in H;
    destruct (Z.ltb_spec l bound) as [Hlt|Hge]; try done.
  - simplify_eq. split; [lia | done].
  - destruct (m !! l) as [x|] eqn:Hl; [|done].
    apply IH in H as [Hk Ho]; [|lia]. split.
    + intros k Hk'. destruct (decide (k = 0)) as [->|Hk0].
      * rewrite Z.add_0_r, Z.add_0_r, Ho by lia.
        rewrite lookup_delete_ne, lookup_insert_eq by lia. done.
      * replace (it + k) with (it + 1 + (k - 1)) by lia.
        rewrite Hk by lia.
        rewrite lookup_delete_ne, lookup_insert_ne by lia. f_equal; lia.
    + intros a Ha1 Ha2. rewrite Ho by lia.
      by rewrite lookup_delete_ne, lookup_insert_ne by lia.
  - simplify_eq. split; [lia | done].
Qed.

Lemma move_up_total fuel m l it bound :
  bound - l ≤ Z.of_nat fuel →
  (∀ a, l ≤ a < bound → is_Some (m !! a)) →
  is_Some (move_up fuel m l it bound).
Proof.
  revert m l it. induction fuel as [|fuel IH]; intros m l it Hfuel Hm; cbn;
    destruct (Z.ltb_spec l bound) as [Hlt|Hge]; try done; try lia.
  destruct (Hm l) as [x ->]; [lia|].
  apply IH; [lia|]. intros a Ha.
  rewrite lookup_delete_ne by lia.
  destruct (decide (it = a)) as [->|Hne].
  - by rewrite lookup_insert_eq.
  - rewrite lookup_insert_ne by done. apply Hm. lia.
Qed.

Tactic Notation "bind_some" hyp(H) "as" ident(Hle) ident(Hp) ident(Hm) :=
  match type of H with
  | context [destroy_down ?f ?m ?p ?t] =>
      let E := fresh "Hloop" in
      destruct (destroy_down f m p t) as [[? ?]|] eqn:E; cbn in H; [|done];
      apply destroy_down_spec in E as (Hle & Hp & Hm)
  end.

Lemma released_lookup m (b c a : Z) :
  ¬ b ≤ a < b + c →
  (if negb (b =? nullptr) then deallocate m b c else m) !! a = m !! a.
Proof.
  intros Ha. destruct (negb _); [|done].
  unfold deallocate. rewrite map_lookup_filter.
  destruct (m !! a); cbn; [|done]. by rewrite option_guard_True.
Qed.

(** What the truncation step of [reserve] leaves: either one run
    [[lower_bond_, first_upper_bond)] that stops before the end of the
    storage, or a run up to the end of the storage followed by
    [[data_begin, upper_bond_)]; the two hold [min (count r) size] objects,
    none of them touched. *)
Lemma reserve_truncate_spec r n m1 u1 f1 :
  wf r → upper_bond_ r ≠ data_end_ r → 0 ≤ n < size_modulus →
  reserve_truncate r n
    (if lower_bond_ r <? upper_bond_ r then upper_bond_ r else data_end_ r)
    = Some (m1, u1, f1) →
  let k := Z.min (count r) n in
  ((f1 = lower_bond_ r + k ∧ u1 = f1 ∧ f1 < data_end_ r) ∨
   (f1 = data_end_ r ∧ u1 = data_begin r + (k - (data_end_ r - lower_bond_ r)) ∧
    data_end_ r - lower_bond_ r ≤ k ∧ u1 ≤ lower_bond_ r)) ∧
  ∀ a, lower_bond_ r ≤ a < f1 ∨ (f1 = data_end_ r ∧ data_begin r ≤ a < u1) →
       m1 !! a = objects r !! a.
Proof.
  intros [Hc Hl Hs Hu] Hne Hn H k. subst k. destruct r as [c e l u m].
  unfold reserve_truncate, count, data_begin in *. cbn in *.
  destruct (Z.eqb_spec u e) as [|_]; [done|].
  destruct (Z.ltb_spec l u) as [Hlu|Hul].
  - rewrite to_size_t_small, Z.eqb_refl, Z.gtb_ltb in H by lia. cbn in H.
    destruct (Z.ltb_spec n (u - l)).
    + bind_some H as Hle Hp Hm. simplify_eq. split; [left; lia|].
      intros a Ha. auto with lia.
    + rewrite Z.geb_leb in H. destruct (Z.leb_spec u l); [lia|]. cbn in H.
      simplify_eq. split; [left; lia | done].
  - rewrite to_size_t_small, Z.gtb_ltb in H by lia.
    destruct (Z.eqb_spec e u) as [|_]; [done|]. cbn in H.
    destruct (Z.ltb_spec n (e - l)).
    + bind_some H as Hle1 Hp1 Hm1. bind_some H as Hle2 Hp2 Hm2.
      simplify_eq. split; [left; lia|].
      intros a Ha. rewrite Hm2, Hm1 by lia. done.
    + rewrite Z.geb_leb, to_size_t_small, Z.gtb_ltb in H by lia.
      destruct (Z.leb_spec u l); [|lia]. cbn in H.
      destruct (Z.ltb_spec n (c - (l - u))).
      * rewrite to_size_t_small in H by lia. bind_some H as Hle Hp Hm.
        simplify_eq.
        split; [right; lia|]. intros a Ha. auto with lia.
      * simplify_eq. split; [right; lia | done].
Qed.

Lemma reserve_truncate_total r n :
  wf r → upper_bond_ r ≠ data_end_ r → 0 ≤ n < size_modulus →
  is_Some (reserve_truncate r n
    (if lower_bond_ r <? upper_bond_ r then upper_bond_ r else data_end_ r)).
Proof.
  intros [Hc Hl Hs Hu] Hne Hn. destruct r as [c e l u m].
  unfold reserve_truncate, data_begin in *. cbn in *.
  destruct (Z.ltb_spec l u) as [Hlu|Hul].
  - rewrite to_size_t_small, Z.eqb_refl, Z.gtb_ltb by lia. cbn.
    destruct (Z.ltb_spec n (u - l)).
    + destruct (destroy_down_total (Z.to_nat c) m u (l + n)) as [[??] ->];
        [lia | lia | done].
    + rewrite Z.geb_leb. destruct (Z.leb_spec u l); [lia | done].
  - rewrite to_size_t_small, Z.gtb_ltb by lia.
    destruct (Z.eqb_spec e u) as [|_]; [done|]. cbn.
    destruct (Z.ltb_spec n (e - l)).
    + destruct (destroy_down_total (Z.to_nat c) m u (e - c)) as [[m' ?] ->];
        [lia | lia |]. cbn.
      destruct (destroy_down_total (Z.to_nat c) m' e (l + n)) as [[??] ->];
        [lia | lia | done].
    + rewrite Z.geb_leb, to_size_t_small, Z.gtb_ltb by lia.
      destruct (Z.leb_spec u l); [|lia]. cbn.
      destruct (Z.ltb_spec n (c - (l - u))); [|done].
      rewrite to_size_t_small by lia.
      destruct (destroy_down_total (Z.to_nat c) m u (l - (c - n))) as [[??] ->];
        [lia | lia | done].
Qed.

(** What [reserve] leaves when it changes the capacity and returns: the new
    storage, with the first [min (count r) size] objects of the old ring at
    its start, in order. *)
Lemma reserve_spec r n alloc r' :
  wf r → 0 ≤ n < size_modulus → capacity_ r ≠ n → fresh r n alloc →
  reserve r n alloc = Returned tt r' →
  ∃ data,
    (if n =? 0 then Some nullptr else alloc) = Some data ∧
    capacity_ r' = n ∧ data_end_ r' = data + n ∧ lower_bond_ r' = data ∧
    upper_bond_ r' =
      (if upper_bond_ r =? data_end_ r then data + n
       else data + Z.min (count r) n) ∧
    ∀ i, 0 ≤ i < Z.min (count r) n →
         objects r' !! (data + i) = objects r !! slot r i.
Proof.
  intros Hwf Hn Hcap Hfresh H. unfold reserve in H.
  destruct (Z.eqb_spec (capacity_ r) n) as [|_]; [done|]. cbn in H.
  destruct (if n =? 0 then Some nullptr else alloc) as [data|] eqn:Hdata;
    [|done].
  exists data. split; [done|].
  assert (Hdisj : n = 0 ∨ data + n ≤ data_begin r ∨ data_end_ r ≤ data).
  { destruct (Z.eqb_spec n 0); [by left|right]. by subst alloc. }
  clear Hfresh Hdata.
  destruct (Z.eqb_spec (upper_bond_ r) (data_end_ r)) as [Hue|Hue]; cbn in H.
  { simplify_eq. cbn. split_and!; try done.
    unfold count. rewrite Hue, Z.eqb_refl. lia. }
  destruct (reserve_truncate _ _ _) as [[[m1 u1] f1]|] eqn:Ht; [|done].
  apply reserve_truncate_spec in Ht as [Hshape Hkeep]; try done.
  destruct (move_up _ m1 _ _ _) as [[[m3 l3] it3]|] eqn:H1; [|done].
  destruct (move_up _ m3 _ _ _) as [[[m5 l5] it5]|] eqn:H2; [|done].
  simplify_eq. cbn.
  pose proof (move_up_pointers _ _ _ _ _ _ _ _ H1) as [-> ->].
  pose proof (move_up_pointers _ _ _ _ _ _ _ _ H2) as [-> ->].
  destruct Hwf as [Hc Hl Hs Hu].
  assert (0 < count r ≤ capacity_ r)
    by (unfold count, data_begin in *; case_cmp; lia).
  set (k := Z.min (count r) n) in *.
  unfold slot, data_begin in *.
  destruct Hshape as [(-> & -> & Hlt)|(-> & -> & Hle & Hul)].
  - replace (Z.max (lower_bond_ r) (lower_bond_ r + k)) with (lower_bond_ r + k)
      in * by lia.
    destruct (Z.gtb_spec (lower_bond_ r + k) (lower_bond_ r + k)); [lia|].
    split_and!; try done; [lia|]. intros i Hi.
    apply move_up_objects in H1 as [Hmv1 _]; [|lia].
    apply move_up_objects in H2 as [_ Hmv2]; [|lia].
    rewrite released_lookup, Hmv2, Hmv1, Hkeep by lia.
    destruct (Z.ltb_spec (lower_bond_ r + i) (data_end_ r)); [done | lia].
  - replace (Z.max (lower_bond_ r) (data_end_ r)) with (data_end_ r) in * by lia.
    match type of H2 with context [Z.gtb ?a ?b] =>
      destruct (Z.gtb_spec a b); [|lia] end.
    split_and!; try done; [lia|]. intros i Hi.
    apply move_up_objects in H1 as [Hmv1 Hout1]; [|lia].
    apply move_up_objects in H2 as [Hmv2 Hout2]; [|lia].
    rewrite released_lookup by lia.
    destruct (Z.ltb_spec (lower_bond_ r + i) (data_end_ r)).
    + rewrite Hout2, Hmv1, Hkeep by lia. done.
    + replace (data + i) with
        (data + (data_end_ r - lower_bond_ r) +
           (i - (data_end_ r - lower_bond_ r))) by lia.
      rewrite Hmv2, Hout1, Hkeep by lia. f_equal. lia.
Qed.

Lemma holds_slot r q i :
  holds r q → 0 ≤ i < count r → is_Some (objects r !! slot r i).
Proof.
  intros (_ & Hn & Hq) Hi.
  destruct (lookup_lt_is_Some_2 q (Z.to_nat i)) as [x Hx]; [lia|].
  exists x. apply Hq in Hx. by rewrite Z2Nat.id in Hx by lia.
Qed.

Lemma reserve_total r q n alloc :
  holds r q → 0 ≤ n < size_modulus → fresh r n alloc →
  (n ≠ 0 → capacity_ r ≠ n → is_Some alloc) →
  ∃ r', reserve r n alloc = Returned tt r'.
Proof.
  intros Hr Hn Hfresh Halloc. unfold reserve.
  destruct (Z.eqb_spec (capacity_ r) n) as [|Hcap]; cbn; [by eexists|].
  destruct (if n =? 0 then Some nullptr else alloc) as [data|] eqn:Hdata; last first.
  { destruct (Z.eqb_spec n 0); [done|]. destruct Halloc; try done. congruence. }
  assert (Hdisj : n = 0 ∨ data + n ≤ data_begin r ∨ data_end_ r ≤ data).
  { destruct (Z.eqb_spec n 0); [by left|right]. by subst alloc. }
  clear Hfresh Hdata Halloc.
  destruct (Z.eqb_spec (upper_bond_ r) (data_end_ r)) as [Hue|Hue]; cbn;
    [by eexists|].
  pose proof Hr as (Hwf & _ & _).
  destruct (reserve_truncate_total r n Hwf Hue Hn) as [[[m1 u1] f1] Ht].
  rewrite Ht.
  apply reserve_truncate_spec in Ht as [Hshape Hkeep]; try done.
  pose proof (λ i, holds_slot r q i Hr) as Hslot.
  destruct Hwf as [Hc Hl Hs Hu].
  assert (0 < count r ≤ capacity_ r)
    by (unfold count, data_begin in *; case_cmp; lia).
  set (k := Z.min (count r) n) in *.
  unfold slot, data_begin in *.
  destruct (move_up_total (Z.to_nat (capacity_ r)) m1 (lower_bond_ r) data f1)
    as [[[m3 l3] it3] H1].
  { destruct Hshape as [(-> & -> & Hlt)|(-> & -> & Hle & Hul)]; lia. }
  { intros a Ha. rewrite Hkeep by lia.
    specialize (Hslot (a - lower_bond_ r)).
    replace (lower_bond_ r + (a - lower_bond_ r)) with a in Hslot by lia.
    destruct (Z.ltb_spec a (data_end_ r)); [apply Hslot|];
      destruct Hshape as [(-> & -> & Hlt)|(-> & -> & Hle & Hul)]; lia. }
  rewrite H1.
  pose proof (move_up_pointers _ _ _ _ _ _ _ _ H1) as [-> ->].
  match goal with |- context [move_up ?f m3 ?l ?i u1] =>
    destruct (move_up_total f m3 l i u1) as [[[m5 l5] it5] H2] end.
  { destruct Hshape as [(-> & -> & Hlt)|(-> & -> & Hle & Hul)];
      case_cmp; lia. }
  { destruct Hshape as [(-> & -> & Hlt)|(-> & -> & Hle & Hul)].
    - intros a Ha. revert Ha. case_cmp; lia.
    - replace (Z.max (lower_bond_ r) (data_end_ r)) with (data_end_ r) by lia.
      destruct (Z.gtb_spec (data_end_ r)
        (data_end_ r - capacity_ r + (k - (data_end_ r - lower_bond_ r))));
        [|lia].
      intros a Ha.
      apply move_up_objects in H1 as [_ Hout1]; [|lia].
      rewrite Hout1, Hkeep by lia.
      specialize (Hslot (a + capacity_ r - lower_bond_ r)).
      destruct (Z.ltb_spec
        (lower_bond_ r + (a + capacity_ r - lower_bond_ r)) (data_end_ r));
        [lia|].
      replace (lower_bond_ r + (a + capacity_ r - lower_bond_ r) - capacity_ r)
        with a in Hslot by lia.
      apply Hslot. lia. }
  rewrite H2. by eexists.
Qed.

(** [reserve] on a ring that holds [q]: it returns, the capacity is the one
    asked for, and the ring holds [q] still if [q] is shorter than the new
    capacity (or nothing was to be done), and reads as empty otherwise. *)
Lemma holds_reserve r q n alloc :
  holds r q → 0 ≤ n < size_modulus → fresh r n alloc →
  (n ≠ 0 → capacity_ r ≠ n → is_Some alloc) →
  ∃ r',
    reserve r n alloc = Returned tt r' ∧ capacity_ r' = n ∧
    (capacity_ r ≠ n → lower_bond_ r' = data_begin r') ∧
    holds r'
      (if capacity_ r =? n then q
       else if Z.of_nat (length q) <? n then q else []).
Proof.
  intros Hr Hn Hfresh Halloc.
  destruct (reserve_total _ _ _ _ Hr Hn Hfresh Halloc) as [r' Hres].
  exists r'. split; [done|].
  destruct (Z.eqb_spec (capacity_ r) n) as [Hcap|Hcap].
  { unfold reserve in Hres. rewrite Hcap, Z.eqb_refl in Hres. cbn in Hres.
    by simplify_eq. }
  pose proof Hr as (Hwf & Hlen & Hq).
  destruct (reserve_spec _ _ _ _ Hwf Hn Hcap Hfresh Hres)
    as (data & _ & Hc' & He' & Hl' & Hu' & Hobj).
  destruct Hwf as [Hc Hl Hs Hu].
  assert (0 ≤ count r ≤ capacity_ r ∧
          (upper_bond_ r = data_end_ r ↔ count r = 0)) as [Hcnt Hzero]
    by (unfold count, data_begin in *; case_cmp; lia).
  unfold data_begin. split; [done|]. split; [lia|].
  assert (Hwf' : wf r').
  { constructor; unfold data_begin; rewrite ?Hc', ?He', ?Hl', ?Hu';
      case_cmp; lia. }
  rewrite Hlen. set (cr := count r) in *.
  destruct (Z.ltb_spec cr n) as [Hlt|Hge].
  - split; [done|]. split.
    + rewrite Hlen. unfold count. rewrite Hc', He', Hl', Hu'. case_cmp; lia.
    + intros i x Hi. pose proof (lookup_lt_Some _ _ _ Hi).
      unfold slot. rewrite He', Hl', Hc'.
      destruct (Z.ltb_spec (data + Z.of_nat i) (data + n)); [|lia].
      rewrite Hobj by lia. by apply Hq.
  - split; [done|]. split.
    + unfold count. rewrite He', Hu'. cbn. case_cmp; lia.
    + intros i x Hi. by rewrite lookup_nil in Hi.
Qed.

(** ** Reachable rings *)

Lemma reserve_raises r n :
  capacity_ r ≠ n → n ≠ 0 → reserve r n None = Raised r.
Proof.
  intros Hcap Hn. unfold reserve.
  destruct (Z.eqb_spec (capacity_ r) n); [done|].
  destruct (Z.eqb_spec n 0); done.
Qed.

Lemma reserve_returned_alloc r n alloc r' :
  reserve r n alloc = Returned tt r' →
  n ≠ 0 → capacity_ r ≠ n → is_Some alloc.
Proof.
  intros H Hn Hcap. destruct alloc; [done|].
  by rewrite reserve_raises in H.
Qed.

Lemma reachable_holds r : reachable r → ∃ q, holds r q.
Proof.
  induction 1 as [|c a r Hc Hr|r x _ [q Hq] Hf|r x r' _ [q Hq] He Hpop
                 |r n alloc r' _ [q Hq] Hn Hfresh Hres].
  - exists []. apply holds_default.
  - exists []. by eapply holds_sized.
  - exists (q ++ [x]). by apply holds_push.
  - destruct (holds_pop _ _ Hq He) as (y & q' & r'' & _ & Hpop' & Hq').
    exists q'. congruence.
  - destruct (holds_reserve _ _ _ _ Hq Hn Hfresh
                (reserve_returned_alloc _ _ _ _ Hres))
      as (r'' & Hres' & _ & _ & Hq').
    eexists. replace r' with r'' by congruence. exact Hq'.
Qed.

Lemma run_reachable r ops outs r' :
  reachable r → respects r ops = true → run r ops = Some (outs, r') →
  reachable r'.
Proof.
  revert r outs. induction ops as [|[x|] ops IH]; intros r outs Hr Hok Hrun;
    cbn in *.
  - by simplify_eq.
  - apply andb_prop in Hok as [Hf Hok]. apply negb_true_iff in Hf.
    eapply IH; [|done..]. by constructor.
  - apply andb_prop in Hok as [He Hok]. apply negb_true_iff in He.
    destruct (pop r) as [x r1| |] eqn:Hpop; try done.
    destruct (run r1 ops) as [[outs1 r2]|] eqn:Hrun1; cbn in Hrun; [|done].
    simplify_eq. eapply IH; [|done..]. by eapply reach_pop.
Qed.

(** ** The pointers alone: [push], [pop], [reserve] and the range [push] *)

Lemma wf_place_back r x :
  wf r → upper_bond_ r < data_end_ r →
  wf (place_back r x) ∧
  upper_bond_ (place_back r x) < data_end_ (place_back r x).
Proof.
  intros [Hc Hl Hs Hu] Hlt. destruct r as [c e l u m].
  unfold place_back, data_begin in *; cbn in *.
  split; [constructor; unfold data_begin; cbn|]; case_cmp; lia.
Qed.

Lemma wf_unset_empty r :
  wf r → wf (unset_empty r) ∧
  (0 < capacity_ r → upper_bond_ (unset_empty r) < data_end_ (unset_empty r)).
Proof.
  intros [Hc Hl Hs Hu]. destruct r as [c e l u m].
  unfold unset_empty, data_begin in *; cbn in *.
  destruct (Z.eqb_spec u e);
    (split; [constructor; unfold data_begin; cbn|]; cbn; lia).
Qed.

Lemma wf_push r x : wf r → full r = false → wf (push r x).
Proof.
  intros Hwf Hf. unfold push.
  destruct (wf_unset_empty r Hwf) as [Hwf' Hlt].
  apply wf_place_back; [done|]. apply Hlt.
  destruct Hwf as [Hc Hl Hs Hu]. unfold full, data_begin in *.
  destruct (Z.eqb_spec (upper_bond_ r) (lower_bond_ r)); [done | lia].
Qed.

Lemma wf_pop r x r' :
  wf r → empty r = false → pop r = Returned x r' → wf r'.
Proof.
  intros [Hc Hl Hs Hu] He Hpop. destruct r as [c e l u m].
  unfold empty, pop, data_begin in *; cbn in *.
  destruct (m !! l); [|done]. simplify_eq.
  constructor; unfold data_begin; cbn; case_cmp; lia.
Qed.

Lemma wf_reserve r n alloc r' :
  wf r → 0 ≤ n < size_modulus → fresh r n alloc →
  reserve r n alloc = Returned tt r' → wf r' ∧ capacity_ r' = n.
Proof.
  intros Hwf Hn Hfresh Hres.
  destruct (decide (capacity_ r = n)) as [Hcap|Hcap].
  { unfold reserve in Hres. rewrite Hcap, Z.eqb_refl in Hres. cbn in Hres.
    by simplify_eq. }
  destruct (reserve_spec _ _ _ _ Hwf Hn Hcap Hfresh Hres)
    as (data & _ & Hc' & He' & Hl' & Hu' & _).
  split; [|done]. destruct Hwf as [Hc Hl Hs Hu].
  assert (0 ≤ count r) by (unfold count, data_begin in *; case_cmp; lia).
  constructor; unfold data_begin; rewrite ?Hc', ?He', ?Hl', ?Hu';
    case_cmp; lia.
Qed.

(** ** [reserve] with and without room for the elements *)

Lemma reserve_no_room r q n a :
  holds r q → 0 < n ≤ Z.of_nat (length q) → capacity_ r ≠ n →
  fresh r n (Some a) →
  ∃ r', reserve r n (Some a) = Returned tt r' ∧ capacity_ r' = n ∧ holds r' [].
Proof.
  intros Hr Hn Hcap Hfresh.
  pose proof (holds_length_bound _ _ Hr) as Hb.
  destruct Hr as (Hwf & Hr). pose proof (wf_capacity _ Hwf).
  destruct (holds_reserve r q n (Some a)) as (r' & Hres & Hc' & _ & Hr');
    [done | lia | done | done |].
  exists r'. split_and!; [done..|].
  destruct (Z.eqb_spec (capacity_ r) n); [done|].
  by destruct (Z.ltb_spec (Z.of_nat (length q)) n); [lia|].
Qed.

Lemma reserve_room r q n alloc :
  holds r q → Z.of_nat (length q) < n < size_modulus → fresh r n alloc →
  (capacity_ r ≠ n → is_Some alloc) →
  ∃ r',
    reserve r n alloc = Returned tt r' ∧ capacity_ r' = n ∧ holds r' q ∧
    (capacity_ r ≠ n → lower_bond_ r' = data_begin r').
Proof.
  intros Hr Hn Hfresh Halloc.
  destruct (holds_reserve r q n alloc) as (r' & Hres & Hc' & Hl' & Hr');
    [done | lia | done | auto |].
  exists r'. split_and!; [done..| |done].
  destruct (Z.eqb_spec (capacity_ r) n); [done|].
  by destruct (Z.ltb_spec (Z.of_nat (length q)) n); [|lia].
Qed.

End Invariant.

(** ** The range overload of [push] *)

Section BulkProofs.

Context {T : Type}.

Variable T_from_pointer : ptr → T.

Implicit Types (r : ring T).

Lemma push_range_loop_wf fuel r b e r' :
  wf r → upper_bond_ r < data_end_ r →
  push_range_loop T_from_pointer fuel r b e = Some r' →
  wf r' ∧ upper_bond_ r' < data_end_ r'.
Proof.
  revert r b. induction fuel as [|fuel IH]; intros r b Hwf Hlt H; cbn in H;
    destruct (Z.eqb_spec b e); cbn in H; try done; simplify_eq; try done.
  destruct (wf_place_back r (T_from_pointer b) Hwf Hlt) as [Hwf' Hlt'].
  by eapply IH.
Qed.

Lemma wf_push_range r b e r' :
  wf r → 0 ≤ e - b ≤ capacity r - size r →
  push_range T_from_pointer r b e = Returned tt r' → wf r'.
Proof.
  intros Hwf Hlen H. unfold push_range in H.
  destruct (push_range_loop _ _ _ _ _) as [r1|] eqn:Hloop; [|done].
  simplify_eq.
  destruct (wf_unset_empty r Hwf) as [Hwf' Hlt].
  destruct (decide (0 < capacity_ r)) as [Hpos|Hzero].
  - by destruct (push_range_loop_wf _ _ _ _ _ Hwf' (Hlt Hpos) Hloop).
  - assert (e - b = 0) as Heq.
    { rewrite size_count in Hlen by done. unfold capacity in Hlen.
      destruct Hwf as [Hc Hl Hs Hu].
      unfold count, data_begin in *. revert Hlen. case_cmp; lia. }
    rewrite Heq in Hloop. change (Z.to_nat 0) with O in Hloop. cbn in Hloop.
    destruct (Z.eqb_spec b e); [|lia]. cbn in Hloop. by simplify_eq.
Qed.

Lemma reachable_bulk_wf r : reachable_bulk T_from_pointer r → wf r.
Proof.
  induction 1 as [|c a r Hc Hr|r x _ IH Hf|r b e r' _ IH Hlen Hpush
                 |r x r' _ IH He Hpop|r n alloc r' _ IH Hn Hfresh Hres].
  - by destruct (@holds_default T).
  - by destruct (holds_sized c a r Hc Hr).
  - by apply wf_push.
  - by eapply wf_push_range.
  - by eapply wf_pop.
  - by eapply wf_reserve.
Qed.

Lemma reachable_reachable_bulk r :
  reachable r → reachable_bulk T_from_pointer r.
Proof.
  induction 1; [by constructor | by econstructor | by constructor
               | by eapply bulk_pop | by eapply bulk_reserve].
Qed.

(** On a range that is not empty and a ring with storage, the loop does one
    single [push] per position of the range, in order, of the element built
    from the position. *)
Lemma push_range_loop_places fuel r b e :
  0 ≤ e - b ≤ Z.of_nat fuel →
  push_range_loop T_from_pointer fuel r b e =
    Some (fold_left place_back (T_from_pointer <$> seqZ b (e - b)) r).
Proof.
  revert r b. induction fuel as [|fuel IH]; intros r b Hlen; cbn;
    destruct (Z.eqb_spec b e) as [Heq|Hne]; cbn.
  - by rewrite seqZ_nil by lia.
  - lia.
  - by rewrite seqZ_nil by lia.
  - rewrite IH by lia. rewrite (seqZ_cons b (e - b)) by lia.
    replace (Z.succ b) with (b + 1) by lia.
    replace (Z.pred (e - b)) with (e - (b + 1)) by lia. done.
Qed.

Lemma unset_empty_place_back r x :
  capacity_ r ≠ 0 → unset_empty (place_back r x) = place_back r x.
Proof.
  intros Hc. destruct r as [c e l u m].
  unfold unset_empty, place_back; cbn in *. case_cmp; try done; lia.
Qed.

Lemma push_each_places r x items :
  capacity_ r ≠ 0 →
  push_each r (x :: items) = fold_left place_back (x :: items) (unset_empty r).
Proof.
  intros Hc. unfold push_each. cbn [fold_left].
  change (place_back (unset_empty r) x) with (push r x).
  assert (Hc' : capacity_ (push r x) ≠ 0).
  { destruct r as [c e l u m]. unfold push, unset_empty, place_back.
    cbn in *. by case_cmp. }
  assert (Hu : unset_empty (push r x) = push r x)
    by (unfold push; apply unset_empty_place_back;
        destruct r as [c e l u m]; unfold unset_empty; cbn in *; by case_cmp).
  revert Hc' Hu. generalize (push r x). clear r x Hc.
  induction items as [|y items IH]; intros r Hc Hu; cbn [fold_left]; [done|].
  replace (push r y) with (place_back r y) by (unfold push; by rewrite Hu).
  apply IH.
  - destruct r as [c e l u m]. unfold place_back. cbn in *. done.
  - by apply unset_empty_place_back.
Qed.

Lemma push_range_as_pushes r b e :
  capacity_ r ≠ 0 → b < e →
  push_range T_from_pointer r b e =
    Returned tt (push_each r (range_items T_from_pointer b e)).
Proof.
  intros Hc Hlt. unfold push_range, range_items.
  rewrite push_range_loop_places by lia.
  rewrite (seqZ_cons b) by lia. cbn [fmap list_fmap].
  by rewrite push_each_places.
Qed.

End BulkProofs.

(** * The properties of the specification *)

Section Properties.

Context {T : Type}.

Implicit Types (r : ring T) (q : list T).

(** C1 (FIFO law).  On a ring built with a capacity [C > 0], a sequence of
    [push] and [pop] calls in which every [push] finds the ring not full and
    every [pop] finds it not empty runs to its end, and the values the
    [pop]s return are the values given to [push], in call order: the [j]
    [pop]s return the first [j] pushed values, and the remaining pushed
    values are what further [pop]s return, in the same order. *)
Theorem fifo_law (C a : Z) r0 (ops : list (op T)) :
  0 < C < size_modulus →
  ring_sized C (Some a) = Some r0 →
  respects r0 ops = true →
  ∃ outs r',
    run r0 ops = Some (outs, r') ∧
    length outs = pops ops ∧
    outs = take (pops ops) (pushed ops) ∧
    pop_all r' = Some (drop (pops ops) (pushed ops)).
Proof.
  intros HC Hr0 Hok.
  assert (Hh : holds r0 []) by (eapply holds_sized; [|done]; lia).
  destruct (run_holds _ _ _ Hh Hok) as (outs & r' & q' & Hrun & Hr' & Heq & Hn).
  exists outs, r'. cbn in Heq. rewrite Heq, <- Hn.
  split_and!; [done | done | | ].
  - by rewrite take_app_length.
  - rewrite drop_app_length. by apply pop_all_holds.
Qed.

(** C6.  For any capacity [C], after a sequence of [push] and [pop] calls
    each made under its precondition, with [k] pushes and [j] pops, [j ≤ k]
    and [size()] is [k - j]. *)
Theorem size_after_pushes_and_pops (C a : Z) r0 (ops : list (op T)) :
  0 ≤ C < size_modulus →
  ring_sized C (Some a) = Some r0 →
  respects r0 ops = true →
  ∃ outs r',
    run r0 ops = Some (outs, r') ∧
    (pops ops ≤ pushes ops)%nat ∧
    size r' = Z.of_nat (pushes ops) - Z.of_nat (pops ops) ∧
    size r' ≤ capacity r'.
Proof.
  intros HC Hr0 Hok.
  assert (Hh : holds r0 []) by by eapply holds_sized.
  destruct (run_holds _ _ _ Hh Hok) as (outs & r' & q' & Hrun & Hr' & Heq & Hn).
  exists outs, r'. cbn in Heq.
  assert (Hlen : length (pushed ops) = (pops ops + length q')%nat)
    by (rewrite Heq, length_app; lia).
  rewrite (holds_size _ _ Hr'). unfold pushes, capacity.
  pose proof (holds_length_bound _ _ Hr').
  split_and!; [done | lia | lia | lia].
Qed.

(** C7.  A ring whose [capacity()] is 0, however it was reached (default
    construction, [reserve(0)], ...), is empty and full at once and has
    size 0. *)
Theorem zero_capacity_degenerate (T_from_pointer : ptr → T) r :
  reachable_bulk T_from_pointer r →
  capacity r = 0 →
  empty r = true ∧ full r = true ∧ size r = 0.
Proof.
  intros Hr Hc. apply reachable_bulk_wf in Hr as [Hcap Hl Hs Hu].
  unfold capacity, empty, full, size, data_begin in *.
  assert (upper_bond_ r = data_end_ r) as -> by lia.
  assert (lower_bond_ r = data_end_ r) as -> by lia.
  by rewrite Z.eqb_refl.
Qed.

(** C8.  When the allocation that [reserve] or the sized constructor makes
    fails, the failure reaches the caller and nothing has been changed:
    [reserve] leaves the ring exactly as it was, objects included, and the
    constructor builds no ring. *)
Theorem allocation_failure_changes_nothing r (n c : Z) :
  capacity_ r ≠ n → n ≠ 0 →
  reserve r n None = Raised r ∧ ring_sized (T := T) c None = None.
Proof. intros Hcap Hn. split; [by apply reserve_raises | done]. Qed.

(** C9.  With a capacity above 0, in every state reached through the public
    operations under their preconditions, [lower_bond_] is not [data_end_],
    [empty()] and [full()] are not both true, and a [push] never leaves
    [upper_bond_] on the sentinel [data_end_]. *)
Theorem never_empty_and_full (T_from_pointer : ptr → T) r :
  reachable_bulk T_from_pointer r →
  0 < capacity r →
  lower_bond_ r ≠ data_end_ r ∧
  ¬ (empty r = true ∧ full r = true) ∧
  ∀ x, empty (push r x) = false.
Proof.
  intros Hr Hc. apply reachable_bulk_wf in Hr as Hwf.
  pose proof Hwf as [Hcap Hl Hs Hu]. unfold capacity in Hc.
  split_and!.
  - specialize (Hs Hc). lia.
  - unfold empty, full. intros [He Hf].
    apply Z.eqb_eq in He, Hf. specialize (Hs Hc). lia.
  - intros x. unfold push.
    destruct (wf_unset_empty r Hwf) as [Hwf' Hlt].
    destruct (wf_place_back _ x Hwf' (Hlt Hc)) as [_ Hlt'].
    unfold empty. apply Z.eqb_neq. lia.
Qed.

(** C10.  The sized constructor called with capacity 0 gives a ring that
    shows what the default-constructed ring shows: capacity 0, size 0,
    empty and full, with [lower_bond_] and [upper_bond_] on [data_end_]. *)
Theorem sized_zero_like_default (a : Z) :
  ∃ r : ring T,
    ring_sized 0 (Some a) = Some r ∧
    capacity r = 0 ∧ size r = 0 ∧ empty r = true ∧ full r = true ∧
    lower_bond_ r = data_end_ r ∧ upper_bond_ r = data_end_ r ∧
    (capacity r, size r, empty r, full r) =
    (capacity (@ring_default T), size (@ring_default T),
     empty (@ring_default T), full (@ring_default T)).
Proof.
  eexists. split; [reflexivity|].
  unfold capacity, size, empty, full; cbn.
  replace (a + 0 - 0) with (a + 0) by lia.
  rewrite Z.eqb_refl. cbn. split_and!; done.
Qed.

(** Where [reserve] does what C2 says: with a new capacity above [size()],
    it returns, [capacity()] is the new capacity, [size()] and the values
    that later [pop]s return are unchanged, and when storage was replaced
    the elements lie in one run from the first slot of the new storage. *)
Lemma reserve_above_size r (n : Z) alloc :
  reachable r → size r < n < size_modulus → fresh r n alloc →
  (capacity r ≠ n → is_Some alloc) →
  ∃ r',
    reserve r n alloc = Returned tt r' ∧
    capacity r' = n ∧ size r' = size r ∧ pop_all r' = pop_all r ∧
    (capacity r ≠ n →
       lower_bond_ r' = data_begin r' ∧
       (0 < size r → upper_bond_ r' = data_begin r' + size r)).
Proof.
  intros Hr Hn Hfresh Halloc. destruct (reachable_holds _ Hr) as [q Hq].
  rewrite (holds_size _ _ Hq) in *.
  destruct (reserve_room r q n alloc Hq Hn Hfresh Halloc)
    as (r' & Hres & Hc' & Hq' & Hl').
  exists r'. rewrite (holds_size _ _ Hq'), !(pop_all_holds _ q) by done.
  split_and!; try done. intros Hcap. specialize (Hl' Hcap).
  split; [done|]. intros Hpos.
  destruct Hq' as ([Hc1 Hl1 Hs1 Hu1] & Hn1 & _).
  unfold count, data_begin in *. revert Hn1. case_cmp; lia.
Qed.

(** Where [reserve] does what C3 says: [reserve(0)], which calls no
    allocator, returns and leaves a ring of capacity 0 that holds nothing. *)
Lemma reserve_zero r alloc :
  reachable r →
  ∃ r',
    reserve r 0 alloc = Returned tt r' ∧
    capacity r' = 0 ∧ size r' = 0 ∧ pop_all r' = Some [].
Proof.
  intros Hr. destruct (reachable_holds _ Hr) as [q Hq].
  pose proof size_modulus_pos.
  replace (reserve r 0 alloc) with (reserve r 0 None) by done.
  destruct (holds_reserve r q 0 None) as (r' & Hres & Hc' & _ & Hq');
    [done | lia | done | done |].
  exists r'. split; [done|]. split; [done|].
  pose proof (holds_length_bound _ _ Hq') as Hb. rewrite Hc' in Hb.
  rewrite (holds_size _ _ Hq').
  destruct (Z.eqb_spec (capacity_ r) 0);
    [|destruct (Z.ltb_spec (Z.of_nat (length q)) 0); [lia|]].
  - assert (q = []) as -> by (apply length_zero_iff_nil; lia).
    by rewrite (pop_all_holds _ _ Hq').
  - by rewrite (pop_all_holds _ _ Hq').
Qed.

(** C2 (where the code fails it).  On a ring that holds elements and is not
    full, [reserve(size())] returns a ring whose [capacity()] is the old
    [size()], but whose [size()] is 0: it reads as empty and later [pop]s
    return none of the elements. *)
Theorem reserve_to_size_reads_empty r (a : Z) :
  reachable r →
  0 < size r → size r ≠ capacity r →
  fresh r (size r) (Some a) →
  ∃ r',
    reserve r (size r) (Some a) = Returned tt r' ∧
    capacity r' = size r ∧
    size r' = 0 ∧ empty r' = true ∧ pop_all r' = Some [].
Proof.
  intros Hr Hpos Hcap Hfresh. destruct (reachable_holds _ Hr) as [q Hq].
  rewrite (holds_size _ _ Hq) in *.
  destruct (reserve_no_room r q (Z.of_nat (length q)) a Hq)
    as (r' & Hres & Hc' & Hq'); [lia | by auto | done |].
  exists r'. rewrite (holds_size _ _ Hq'), (pop_all_holds _ _ Hq').
  split_and!; try done. by apply (holds_empty _ _ Hq').
Qed.

(** C3 (where the code fails it).  On a ring that holds more than [n]
    elements, with [n > 0], [reserve(n)] returns a ring of capacity [n]
    whose [size()] is 0, not [n]: it reads as empty and later [pop]s return
    none of the [n] oldest elements. *)
Theorem reserve_below_size_reads_empty r (n a : Z) :
  reachable r →
  0 < n < size r →
  fresh r n (Some a) →
  ∃ r',
    reserve r n (Some a) = Returned tt r' ∧
    capacity r' = n ∧
    size r' = 0 ∧ empty r' = true ∧ pop_all r' = Some [].
Proof.
  intros Hr Hn Hfresh. destruct (reachable_holds _ Hr) as [q Hq].
  rewrite (holds_size _ _ Hq) in *.
  pose proof (holds_length_bound _ _ Hq).
  destruct (reserve_no_room r q n a Hq) as (r' & Hres & Hc' & Hq');
    [lia | lia | done |].
  exists r'. rewrite (holds_size _ _ Hq'), (pop_all_holds _ _ Hq').
  split_and!; try done. by apply (holds_empty _ _ Hq').
Qed.

(** C5 (where the code fails it).  On an empty ring with storage, the range
    overload of [push] called with an empty range returns a ring that is
    full, with [size()] equal to [capacity()], whereas no single [push] at
    all leaves the ring as it was, with size 0. *)
Theorem push_of_empty_range_fills (T_from_pointer deref : ptr → T) r (p : Z) :
  reachable r → empty r = true → 0 < capacity r →
  ∃ r',
    push_range T_from_pointer r p p = Returned tt r' ∧
    empty r' = false ∧ full r' = true ∧ size r' = capacity r ∧
    push_each r (range_items deref p p) = r ∧ size r = 0.
Proof.
  intros Hr He Hc. destruct (reachable_holds _ Hr) as [q ([Hcap _ _ _] & _)].
  unfold push_range, range_items, push_each. rewrite Z.sub_diag.
  change (Z.to_nat 0) with O. cbn. rewrite Z.eqb_refl. cbn.
  eexists. split; [done|].
  unfold empty, full, size, unset_empty, capacity in *. rewrite He. cbn.
  destruct (Z.eqb_spec (data_end_ r - capacity_ r) (data_end_ r)); [lia|].
  rewrite Z.eqb_refl, Z.gtb_ltb, Z.ltb_irrefl. cbn.
  split_and!; try done. rewrite to_size_t_small; lia.
Qed.

End Properties.

(** * The properties at concrete rings *)

Lemma ring3_sized : ring_sized 3 (Some 100) = Some ring3.
Proof. reflexivity. Qed.

Lemma ring3_reachable : reachable ring3.
Proof. by apply (reach_sized 3 100). Qed.

Lemma ring_after_reachable (ops : list (op Z)) outs r' :
  respects ring3 ops = true → run ring3 ops = Some (outs, r') →
  reachable (ring_after ring3 ops).
Proof.
  intros Hok Hrun. unfold ring_after. rewrite Hrun.
  by eapply run_reachable; [apply ring3_reachable|..].
Qed.

Lemma fifo_law_witness :
  ∃ outs r',
    run ring3 [Push 1; Push 2; Pop; Push 3; Push 4; Pop; Pop] = Some (outs, r') ∧
    length outs = 3%nat ∧
    outs = [1; 2; 3] ∧
    pop_all r' = Some [4].
Proof.
  apply (fifo_law 3 100 ring3 [Push 1; Push 2; Pop; Push 3; Push 4; Pop; Pop]);
    [done | reflexivity | reflexivity].
Defined.

Lemma size_after_pushes_and_pops_witness :
  ∃ outs r',
    run ring3 [Push 1; Push 2; Pop; Push 3; Push 4] = Some (outs, r') ∧
    (1 ≤ 4)%nat ∧ size r' = 4 - 1 ∧ size r' ≤ capacity r'.
Proof.
  apply (size_after_pushes_and_pops 3 100 ring3
           [Push 1; Push 2; Pop; Push 3; Push 4]);
    [done | reflexivity | reflexivity].
Defined.

(** [ring3] after [push(7)] and [reserve(0)]. *)
Lemma reserved_to_zero_reachable :
  reachable_bulk (λ p : Z, p) (Ring 0 0 0 0 (∅ : gmap Z Z)).
Proof.
  apply (bulk_reserve _ (push ring3 7) 0 None); [|done|done|reflexivity].
  apply bulk_push; [|reflexivity]. by apply (bulk_sized _ 3 100).
Qed.

Lemma zero_capacity_degenerate_witness :
  empty (Ring 0 0 0 0 (∅ : gmap Z Z)) = true ∧
  full (Ring 0 0 0 0 (∅ : gmap Z Z)) = true ∧
  size (Ring 0 0 0 0 (∅ : gmap Z Z)) = 0.
Proof.
  apply (zero_capacity_degenerate (λ p : Z, p));
    [apply reserved_to_zero_reachable | reflexivity].
Defined.

Lemma allocation_failure_changes_nothing_witness :
  reserve (push ring3 7) 5 None = Raised (push ring3 7) ∧
  ring_sized (T := Z) 5 None = None.
Proof. apply allocation_failure_changes_nothing; done. Defined.

(** [ring3] after the range overload of [push] on the range from 500 to
    502, for elements that are themselves pointers. *)
Lemma bulk_pushed_reachable :
  reachable_bulk (λ p : Z, p) (push_each ring3 [500; 501]).
Proof.
  apply (bulk_push_range _ ring3 500 502); [|done|reflexivity].
  by apply (bulk_sized _ 3 100).
Qed.

Lemma never_empty_and_full_witness :
  lower_bond_ (push_each ring3 [500; 501]) ≠ data_end_ (push_each ring3 [500; 501]) ∧
  ¬ (empty (push_each ring3 [500; 501]) = true ∧
     full (push_each ring3 [500; 501]) = true) ∧
  ∀ x, empty (push (push_each ring3 [500; 501]) x) = false.
Proof.
  apply (never_empty_and_full (λ p : Z, p));
    [apply bulk_pushed_reachable | reflexivity].
Defined.

Lemma wrapped_ring_reachable : reachable wrapped_ring.
Proof. by eapply ring_after_reachable; [|reflexivity]. Qed.

Lemma reserve_to_size_reads_empty_witness :
  ∃ r',
    reserve (push_each ring3 [1; 2]) (size (push_each ring3 [1; 2])) (Some 200)
      = Returned tt r' ∧
    capacity r' = size (push_each ring3 [1; 2]) ∧
    size r' = 0 ∧ empty r' = true ∧ pop_all r' = Some [].
Proof.
  apply reserve_to_size_reads_empty;
    [ do 2 (apply reach_push; [|reflexivity]); apply ring3_reachable
    | reflexivity | by vm_compute | by vm_compute; right ].
Defined.

Lemma reserve_below_size_reads_empty_witness :
  ∃ r',
    reserve (push_each ring3 [1; 2; 3]) 2 (Some 200) = Returned tt r' ∧
    capacity r' = 2 ∧
    size r' = 0 ∧ empty r' = true ∧ pop_all r' = Some [].
Proof.
  apply reserve_below_size_reads_empty;
    [ do 3 (apply reach_push; [|reflexivity]); apply ring3_reachable
    | by vm_compute | by vm_compute; right ].
Defined.

Lemma push_of_empty_range_fills_witness :
  ∃ r',
    push_range (λ p : Z, p) ring3 500 500 = Returned tt r' ∧
    empty r' = false ∧ full r' = true ∧ size r' = capacity ring3 ∧
    push_each ring3 (range_items (λ p : Z, p * 10) 500 500) = ring3 ∧
    size ring3 = 0.
Proof.
  apply push_of_empty_range_fills;
    [apply ring3_reachable | reflexivity | reflexivity].
Defined.

(** The run of [test/basics.cpp]: a default ring, [reserve(10)], eight
    pushes, [reserve(16)], then eight rounds of one [push] and two [pop]s;
    the values popped and the capacity and size at the end. *)
Example basics_scenario :
  (empty (@ring_default Z), full (@ring_default Z),
   capacity (@ring_default Z), size (@ring_default Z)) = (true, true, 0, 0) ∧
  (empty (reserved ring_default 10 1000), full (reserved ring_default 10 1000),
   capacity (reserved ring_default 10 1000), size (reserved ring_default 10 1000))
    = (true, false, 10, 0) ∧
  size (push_each (reserved ring_default 10 1000) [0; 1; 2; 3; 4; 5; 6; 7]) = 8 ∧
  (λ '(outs, r), (outs, capacity r, size r)) <$>
    run (reserved
           (push_each (reserved ring_default 10 1000) [0; 1; 2; 3; 4; 5; 6; 7])
           16 2000)
        [Push 8; Pop; Pop; Push 9; Pop; Pop; Push 10; Pop; Pop;
         Push 11; Pop; Pop; Push 12; Pop; Pop; Push 13; Pop; Pop;
         Push 14; Pop; Pop; Push 15; Pop; Pop]
    = Some ([0; 1; 2; 3; 4; 5; 6; 7; 8; 9; 10; 11; 12; 13; 14; 15], 16, 0).
Proof. split_and!; vm_compute; reflexivity. Qed.

(** The range overload on a range that is not empty, for elements that are
    themselves pointers: what is pushed are the addresses 500 and 501, not
    the elements stored there. *)
Example push_range_pushes_addresses :
  match push_range (λ p : Z, p) ring3 500 502 with
  | Returned _ r => pop_all r
  | _ => None
  end = Some [500; 501] ∧
  pop_all (push_each ring3 (range_items (λ p : Z, p * 10) 500 502))
    = Some [5000; 5010].
Proof. split; vm_compute; reflexivity. Qed.

(** * Further properties: where the objects are, and the destructor *)

Section Objects.

Context {T : Type}.

Implicit Types (r : ring T) (m : gmap Z T) (q : list T).

Lemma destroy_down_deleted fuel m p t m' p' a :
  destroy_down fuel m p t = Some (m', p') → t ≤ a < p → m' !! a = None.
Proof.
  revert m p. induction fuel as [|fuel IH]; intros m p H Ha; cbn in H;
    destruct (Z.eqb_spec p t) as [Heq|Hne]; try done; try lia.
  destruct (decide (a = p - 1)) as [->|Hap].
  - apply destroy_down_spec in H as (Hle & _ & Hm).
    rewrite Hm by lia. apply lookup_delete_eq.
  - eapply IH; [done | lia].
Qed.

Lemma destroy_down_Some fuel m p t m' p' a x :
  destroy_down fuel m p t = Some (m', p') → m' !! a = Some x →
  m !! a = Some x ∧ ¬ t ≤ a < p.
Proof.
  intros H Ha. destruct (decide (t ≤ a < p)) as [Hin|Hout].
  - by rewrite (destroy_down_deleted _ _ _ _ _ _ _ H Hin) in Ha.
  - apply destroy_down_spec in H as (_ & _ & Hm).
    rewrite Hm in Ha by lia. done.
Qed.

Lemma move_up_sources fuel m l it bound m' l' it' a :
  move_up fuel m l it bound = Some (m', l', it') →
  it + (bound - l) ≤ l ∨ bound ≤ it →
  l ≤ a < bound → m' !! a = None.
Proof.
  revert m l it. induction fuel as [|fuel IH]; intros m l it H Hd Ha;
    cbn in H; destruct (Z.ltb_spec l bound) as [Hlt|Hge]; try done; try lia.
  destruct (m !! l) as [x|] eqn:Hl; [|done].
  destruct (decide (a = l)) as [->|Hal].
  - apply move_up_objects in H as [_ Ho]; [|lia].
    rewrite Ho by lia. apply lookup_delete_eq.
  - eapply IH; [done | lia | lia].
Qed.

Lemma move_up_Some fuel m l it bound m' l' it' a x :
  move_up fuel m l it bound = Some (m', l', it') →
  it + (bound - l) ≤ l ∨ bound ≤ it →
  m' !! a = Some x →
  it ≤ a < it + (bound - l) ∨ (m !! a = Some x ∧ ¬ l ≤ a < bound).
Proof.
  intros H Hd Ha.
  destruct (decide (it ≤ a < it + (bound - l))) as [|Hdest]; [by left|].
  right. destruct (decide (l ≤ a < bound)) as [Hsrc|Hsrc].
  - by rewrite (move_up_sources _ _ _ _ _ _ _ _ _ H Hd Hsrc) in Ha.
  - apply move_up_objects in H as [_ Ho]; [|done].
    rewrite Ho in Ha by done. done.
Qed.

Lemma released_Some m (b c a : Z) x :
  (if negb (b =? nullptr) then deallocate m b c else m) !! a = Some x →
  m !! a = Some x.
Proof.
  destruct (negb _); [|done]. unfold deallocate.
  intros H. by apply map_lookup_filter_Some in H as [? _].
Qed.

(** The truncation step of [reserve] makes no object and destroys no
    object outside the live slots; the live slots that keep theirs are the
    run, or the two runs, that it leaves. *)
Lemma reserve_truncate_rest r n m1 u1 f1 a x :
  wf r → upper_bond_ r ≠ data_end_ r → 0 ≤ n < size_modulus →
  reserve_truncate r n
    (if lower_bond_ r <? upper_bond_ r then upper_bond_ r else data_end_ r)
    = Some (m1, u1, f1) →
  m1 !! a = Some x →
  objects r !! a = Some x ∧
  (live_slot r a →
     lower_bond_ r ≤ a < f1 ∨ (f1 = data_end_ r ∧ data_begin r ≤ a < u1)).
Proof.
  intros [Hc Hl Hs Hu] Hne Hn H Ha. destruct r as [c e l u m].
  unfold reserve_truncate, live_slot, data_begin in *. cbn in *.
  destruct (Z.ltb_spec l u) as [Hlu|Hul].
  - rewrite to_size_t_small, Z.eqb_refl, Z.gtb_ltb in H by lia. cbn in H.
    destruct (Z.ltb_spec n (u - l)).
    + destruct (destroy_down _ _ _ _) as [[m2 f2]|] eqn:Hloop; cbn in H;
        [|done].
      simplify_eq.
      pose proof (destroy_down_spec _ _ _ _ _ _ Hloop) as (_ & -> & _).
      apply (destroy_down_Some _ _ _ _ _ _ _ _ Hloop) in Ha as [Ha Hout].
      split; [done|]. intros [_ Hlive]. lia.
    + rewrite Z.geb_leb in H. destruct (Z.leb_spec u l); [lia|]. cbn in H.
      simplify_eq. split; [done|]. intros [_ Hlive]. lia.
  - rewrite to_size_t_small, Z.gtb_ltb in H by lia.
    destruct (Z.eqb_spec e u) as [|_]; [done|]. cbn in H.
    destruct (Z.ltb_spec n (e - l)).
    + destruct (destroy_down _ m u _) as [[m2 p2]|] eqn:Hloop1; cbn in H;
        [|done].
      destruct (destroy_down _ m2 e _) as [[m3 f3]|] eqn:Hloop2; cbn in H;
        [|done].
      simplify_eq.
      pose proof (destroy_down_spec _ _ _ _ _ _ Hloop2) as (_ & -> & _).
      apply (destroy_down_Some _ _ _ _ _ _ _ _ Hloop2) in Ha as [Ha Hout2].
      apply (destroy_down_Some _ _ _ _ _ _ _ _ Hloop1) in Ha as [Ha Hout1].
      split; [done|]. intros [_ Hlive]. lia.
    + rewrite Z.geb_leb, to_size_t_small, Z.gtb_ltb in H by lia.
      destruct (Z.leb_spec u l); [|lia]. cbn in H.
      destruct (Z.ltb_spec n (c - (l - u))).
      * rewrite to_size_t_small in H by lia.
        destruct (destroy_down _ _ _ _) as [[m2 p2]|] eqn:Hloop; cbn in H;
          [|done].
        simplify_eq.
        pose proof (destroy_down_spec _ _ _ _ _ _ Hloop) as (_ & -> & _).
        apply (destroy_down_Some _ _ _ _ _ _ _ _ Hloop) in Ha as [Ha Hout].
        split; [done|]. intros [_ Hlive]. lia.
      * simplify_eq. split; [done|]. intros [_ Hlive]. lia.
Qed.

(** Every object that [reserve] leaves is one of the objects it moved to
    the start of the new storage, or an object that was there before and
    was in no live slot. *)
Lemma reserve_domain r n alloc r' a x :
  wf r → 0 ≤ n < size_modulus → capacity_ r ≠ n → fresh r n alloc →
  reserve r n alloc = Returned tt r' →
  objects r' !! a = Some x →
  lower_bond_ r' ≤ a < lower_bond_ r' + Z.min (count r) n ∨
  (objects r !! a = Some x ∧ ¬ live_slot r a).
Proof.
  intros Hwf Hn Hcap Hfresh H Ha. unfold reserve in H.
  destruct (Z.eqb_spec (capacity_ r) n) as [|_]; [done|]. cbn in H.
  destruct (if n =? 0 then Some nullptr else alloc) as [data|] eqn:Hdata;
    [|done].
  assert (Hdisj : n = 0 ∨ data + n ≤ data_begin r ∨ data_end_ r ≤ data).
  { destruct (Z.eqb_spec n 0); [by left|right]. by subst alloc. }
  clear Hfresh Hdata.
  destruct (Z.eqb_spec (upper_bond_ r) (data_end_ r)) as [Hue|Hue]; cbn in H.
  { simplify_eq. cbn in Ha. apply released_Some in Ha.
    right. split; [done|]. by intros [? _]. }
  destruct (reserve_truncate _ _ _) as [[[m1 u1] f1]|] eqn:Ht; [|done].
  pose proof (reserve_truncate_spec _ _ _ _ _ Hwf Hue Hn Ht) as [Hshape _].
  pose proof (λ a x, reserve_truncate_rest _ _ _ _ _ a x Hwf Hue Hn Ht)
    as Hrest.
  destruct (move_up _ m1 _ _ _) as [[[m3 l3] it3]|] eqn:H1; [|done].
  destruct (move_up _ m3 _ _ _) as [[[m5 l5] it5]|] eqn:H2; [|done].
  simplify_eq. cbn in *. apply released_Some in Ha.
  pose proof (move_up_pointers _ _ _ _ _ _ _ _ H1) as [-> ->].
  pose proof (move_up_pointers _ _ _ _ _ _ _ _ H2) as [-> ->].
  destruct Hwf as [Hc Hl Hs Hu].
  assert (0 < count r ≤ capacity_ r)
    by (unfold count, data_begin in *; case_cmp; lia).
  set (k := Z.min (count r) n) in *.
  unfold data_begin in *.
  destruct Hshape as [(-> & -> & Hlt)|(-> & -> & Hle & Hul)].
  - replace (Z.max (lower_bond_ r) (lower_bond_ r + k)) with (lower_bond_ r + k)
      in * by lia.
    destruct (Z.gtb_spec (lower_bond_ r + k) (lower_bond_ r + k)); [lia|].
    destruct (move_up_Some _ _ _ _ _ _ _ _ a x H2) as [Hd|[Ha2 Hs2]];
      [lia | done | lia |].
    destruct (move_up_Some _ _ _ _ _ _ _ _ a x H1) as [Hd|[Ha1 Hs1]];
      [lia | done | lia |].
    apply Hrest in Ha1 as [Ha1 Hkept]. right. split; [done|].
    intros Hlive. specialize (Hkept Hlive). lia.
  - replace (Z.max (lower_bond_ r) (data_end_ r)) with (data_end_ r) in * by lia.
    match type of H2 with context [Z.gtb ?a ?b] =>
      destruct (Z.gtb_spec a b); [|lia] end.
    destruct (move_up_Some _ _ _ _ _ _ _ _ a x H2) as [Hd|[Ha2 Hs2]];
      [lia | done | lia |].
    destruct (move_up_Some _ _ _ _ _ _ _ _ a x H1) as [Hd|[Ha1 Hs1]];
      [lia | done | lia |].
    apply Hrest in Ha1 as [Ha1 Hkept]. right. split; [done|].
    intros Hlive. specialize (Hkept Hlive). lia.
Qed.

(** ** Rings without stray objects *)

Lemma tidy_push r x : wf r → tidy r → full r = false → tidy (push r x).
Proof.
  intros [Hc Hl Hs Hu] Ht Hf a y Ha. destruct r as [c e l u m].
  unfold tidy, live_slot, full, push, unset_empty, place_back, data_begin in *;
    cbn in *.
  destruct (Z.eqb_spec u e) as [Hue|Hue]; cbn in *.
  - apply lookup_insert_Some in Ha as [[<- _]|[_ Ha]].
    + case_cmp; cbn; case_cmp; lia.
    + apply Ht in Ha as [? _]. done.
  - apply lookup_insert_Some in Ha as [[<- _]|[Hne Ha]].
    + case_cmp; cbn; case_cmp; lia.
    + apply Ht in Ha as [_ Ha]. revert Ha. case_cmp; cbn; case_cmp; lia.
Qed.

Lemma tidy_pop r x r' :
  wf r → tidy r → empty r = false → pop r = Returned x r' → tidy r'.
Proof.
  intros [Hc Hl Hs Hu] Ht He Hpop a y Ha. destruct r as [c e l u m].
  unfold tidy, live_slot, empty, pop, data_begin in *; cbn in *.
  destruct (m !! l); [|done]. simplify_eq. cbn in *.
  apply lookup_delete_Some in Ha as [Hne Ha].
  apply Ht in Ha as [_ Ha]. revert Ha. case_cmp; cbn; case_cmp; lia.
Qed.

Lemma tidy_reserve r n alloc r' :
  wf r → tidy r → 0 ≤ n < size_modulus →
  count r < n ∨ n = 0 ∨ capacity_ r = n →
  fresh r n alloc → reserve r n alloc = Returned tt r' → tidy r'.
Proof.
  intros Hwf Ht Hn Hroom Hfresh Hres.
  destruct (decide (capacity_ r = n)) as [Hcap|Hcap].
  { unfold reserve in Hres. rewrite Hcap, Z.eqb_refl in Hres. cbn in Hres.
    by simplify_eq. }
  intros a x Ha.
  destruct (reserve_domain _ _ _ _ _ _ Hwf Hn Hcap Hfresh Hres Ha)
    as [Hnew|[Hold Hdead]]; [|by apply Ht in Hold].
  destruct (reserve_spec _ _ _ _ Hwf Hn Hcap Hfresh Hres)
    as (data & _ & Hc' & He' & Hl' & Hu' & _).
  destruct Hwf as [Hc Hl Hs Hu].
  assert (0 ≤ count r ∧ (upper_bond_ r = data_end_ r → count r = 0)) as [??]
    by (unfold count, data_begin in *; case_cmp; lia).
  unfold live_slot, data_begin. rewrite ?Hc', ?He', ?Hl', ?Hu' in *.
  set (cr := count r) in *. case_cmp; lia.
Qed.

Lemma reachable_with_room_reachable r : reachable_with_room r → reachable r.
Proof.
  induction 1; [by constructor | by econstructor | by constructor
               | by eapply reach_pop | by eapply reach_reserve].
Qed.

Lemma reachable_with_room_tidy r : reachable_with_room r → tidy r.
Proof.
  induction 1 as [|c a r Hc Hr|r x Hr IH Hf|r x r' Hr IH He Hpop
                 |r n alloc r' Hr IH Hn Hroom Hfresh Hres].
  - intros a x Ha. unfold ring_default in Ha. cbn in Ha.
    by rewrite lookup_empty in Ha.
  - intros b x Hb. unfold ring_sized in Hr. by simplify_eq.
  - apply reachable_with_room_reachable, reachable_holds in Hr as [q [Hwf _]].
    by apply tidy_push.
  - apply reachable_with_room_reachable, reachable_holds in Hr as [q [Hwf _]].
    by eapply tidy_pop.
  - apply reachable_with_room_reachable, reachable_holds in Hr as [q [Hwf _]].
    apply (tidy_reserve r n alloc r'); try done.
    rewrite <- size_count by done. unfold capacity in Hroom. lia.
Qed.

Lemma run_reachable_with_room r (ops : list (op T)) outs r' :
  reachable_with_room r → respects r ops = true →
  run r ops = Some (outs, r') → reachable_with_room r'.
Proof.
  revert r outs. induction ops as [|[x|] ops IH]; intros r outs Hr Hok Hrun;
    cbn in *.
  - by simplify_eq.
  - apply andb_prop in Hok as [Hf Hok]. apply negb_true_iff in Hf.
    eapply IH; [|done..]. by constructor.
  - apply andb_prop in Hok as [He Hok]. apply negb_true_iff in He.
    destruct (pop r) as [x r1| |] eqn:Hpop; try done.
    destruct (run r1 ops) as [[outs1 r2]|] eqn:Hrun1; cbn in Hrun; [|done].
    simplify_eq. eapply IH; [|done..]. by eapply room_pop.
Qed.

(** ** The destructor *)

Lemma destroy_up_spec fuel m (p : Z) (xs : list T) :
  (length xs ≤ fuel)%nat →
  (∀ (i : nat) x, xs !! i = Some x → m !! (p + Z.of_nat i) = Some x) →
  ∃ m',
    destroy_up fuel m p (p + Z.of_nat (length xs)) = Some (xs, m') ∧
    (∀ a, p ≤ a < p + Z.of_nat (length xs) → m' !! a = None) ∧
    (∀ a, ¬ p ≤ a < p + Z.of_nat (length xs) → m' !! a = m !! a).
Proof.
  revert fuel m p. induction xs as [|x xs IH]; intros fuel m p Hfuel Hxs.
  - exists m. cbn [length]. rewrite Z.add_0_r.
    destruct fuel; cbn; rewrite Z.eqb_refl; cbn; (split_and!; [done|lia|done]).
  - destruct fuel as [|fuel]; [cbn in Hfuel; lia|]. cbn [destroy_up].
    destruct (Z.eqb_spec p (p + Z.of_nat (length (x :: xs)))) as [Heq|_];
      [cbn in Heq; lia|]. cbn [negb].
    pose proof (Hxs O x eq_refl) as H0. rewrite Z.add_0_r in H0. rewrite H0.
    destruct (IH fuel (delete p m) (p + 1)) as (m' & Hrun & Hin & Hout).
    { cbn in Hfuel. lia. }
    { intros i y Hi. rewrite lookup_delete_ne by lia.
      replace (p + 1 + Z.of_nat i) with (p + Z.of_nat (S i)) by lia.
      by apply Hxs. }
    replace (p + Z.of_nat (length (x :: xs)))
      with (p + 1 + Z.of_nat (length xs)) by (cbn [length]; lia).
    rewrite Hrun. cbn. exists m'. split_and!; [done | |].
    + intros a Ha. destruct (decide (a = p)) as [->|Hne].
      * rewrite Hout by lia. apply lookup_delete_eq.
      * apply Hin. lia.
    + intros a Ha. rewrite Hout by lia. apply lookup_delete_ne. lia.
Qed.

(** On a ring that holds [q], the destructor destroys the elements of [q],
    front first, and touches no other object. *)
Lemma destroy_elements_holds r q :
  holds r q →
  ∃ m',
    destroy_elements r = Some (q, m') ∧
    (∀ a, live_slot r a → m' !! a = None) ∧
    (∀ a, ¬ live_slot r a → m' !! a = objects r !! a).
Proof.
  intros ([Hc Hl Hs Hu] & Hn & Hq). destruct r as [c e l u m].
  unfold destroy_elements, live_slot, count, slot, data_begin in *; cbn in *.
  destruct (Z.eqb_spec u e) as [Hue|Hue]; cbn.
  { assert (q = []) as -> by (apply length_zero_iff_nil; lia).
    exists m. split_and!; [done | by intros a [? _] | done]. }
  rewrite Z.geb_leb.
  destruct (Z.ltb_spec l u) as [Hlu|Hul].
  - destruct (Z.leb_spec u l); [lia|]. cbn.
    destruct (destroy_up_spec (Z.to_nat c) m l q) as (m' & Hrun & Hin & Hout).
    { lia. }
    { intros i x Hi. pose proof (lookup_lt_Some _ _ _ Hi). apply Hq in Hi.
      destruct (Z.ltb_spec (l + Z.of_nat i) e); [done | lia]. }
    replace (l + Z.of_nat (length q)) with u in * by lia.
    rewrite Hrun. cbn. exists m'. split_and!; [done | |].
    + intros a [_ Ha]. by apply Hin.
    + intros a Ha. apply Hout. intros ?. apply Ha. done.
  - destruct (Z.leb_spec u l); [|lia]. cbn.
    set (k := Z.to_nat (e - l)).
    assert (Hk : length (take k q) = k) by (rewrite length_take; lia).
    assert (Hd : Z.of_nat (length (drop k q)) = u - (e - c))
      by (rewrite length_drop; lia).
    destruct (destroy_up_spec (Z.to_nat c) m l (take k q))
      as (m1 & Hrun1 & Hin1 & Hout1).
    { lia. }
    { intros i x Hi. apply lookup_take_Some in Hi as [Hi Hik].
      apply Hq in Hi.
      destruct (Z.ltb_spec (l + Z.of_nat i) e); [done | lia]. }
    replace (l + Z.of_nat (length (take k q))) with e in * by lia.
    rewrite Hrun1. cbn.
    destruct (destroy_up_spec (Z.to_nat c) m1 (e - c) (drop k q))
      as (m2 & Hrun2 & Hin2 & Hout2).
    { lia. }
    { intros i x Hi. pose proof (lookup_lt_Some _ _ _ Hi).
      rewrite lookup_drop in Hi. apply Hq in Hi.
      rewrite Hout1 by lia.
      destruct (Z.ltb_spec (l + Z.of_nat (k + i)) e); [lia|].
      rewrite <- Hi. f_equal. lia. }
    replace (e - c + Z.of_nat (length (drop k q))) with u in * by lia.
    rewrite Hrun2. cbn. rewrite take_drop. exists m2. split_and!; [done | |].
    + intros a [_ [Ha|Ha]].
      * rewrite Hout2 by lia. by apply Hin1.
      * by apply Hin2.
    + intros a Ha.
      rewrite Hout2, Hout1; [done | |]; intros ?; apply Ha; (split; [done|]);
        lia.
Qed.

(** ** More on [push], [pop] and the live slots *)

Lemma push_capacity r x : capacity_ (push r x) = capacity_ r.
Proof.
  destruct r as [c e l u m]. unfold push, unset_empty, place_back. cbn.
  by destruct (u =? e).
Qed.

Lemma pop_capacity r x r' : pop r = Returned x r' → capacity_ r' = capacity_ r.
Proof.
  unfold pop. destruct (objects r !! lower_bond_ r); [|done].
  intros ?. by simplify_eq.
Qed.

Lemma holds_not_full r q :
  holds r q → Z.of_nat (length q) < capacity_ r → full r = false.
Proof.
  intros Hr Hlt. destruct (full r) eqn:Hf; [|done].
  apply (holds_full _ _ Hr) in Hf. lia.
Qed.

Lemma holds_push_each r q (items : list T) :
  holds r q → Z.of_nat (length q + length items) ≤ capacity_ r →
  holds (push_each r items) (q ++ items).
Proof.
  revert r q. induction items as [|x items IH]; intros r q Hr Hlen.
  - by rewrite app_nil_r.
  - cbn [length] in Hlen. unfold push_each. cbn [fold_left].
    change (fold_left push items (push r x)) with (push_each (push r x) items).
    replace (q ++ x :: items) with ((q ++ [x]) ++ items)
      by (by rewrite <- app_assoc).
    apply IH.
    + apply holds_push; [done|]. eapply holds_not_full; [done|lia].
    + rewrite push_capacity, length_app. cbn. lia.
Qed.

Lemma holds_push_full r x :
  wf r → full r = true → 0 < capacity_ r → holds (push r x) [x].
Proof.
  intros [Hc Hl Hs Hu] Hf Hpos. destruct r as [c e l u m].
  unfold full, push, unset_empty, place_back, data_begin in *; cbn in *.
  apply Z.eqb_eq in Hf. subst u.
  destruct (Z.eqb_spec l e) as [|_]; [lia|]. cbn.
  split; [|split].
  - constructor; unfold data_begin; cbn; case_cmp; lia.
  - unfold count; cbn. case_cmp; lia.
  - intros [|i] y Hi; [|done]. cbn in Hi. simplify_eq.
    unfold slot; cbn. rewrite Z.add_0_r.
    destruct (Z.ltb_spec l e); [|lia]. apply lookup_insert_eq.
Qed.

Lemma live_slot_slot r a :
  wf r → live_slot r a → ∃ i, 0 ≤ i < count r ∧ slot r i = a.
Proof.
  intros [Hc Hl Hs Hu] [Hue Ha].
  unfold count, slot, data_begin in *.
  destruct (Z.eqb_spec (upper_bond_ r) (data_end_ r)); [done|].
  destruct (Z.ltb_spec (lower_bond_ r) (upper_bond_ r)).
  - exists (a - lower_bond_ r). case_cmp; lia.
  - destruct Ha as [Ha|Ha].
    + exists (a - lower_bond_ r). case_cmp; lia.
    + exists (a + capacity_ r - lower_bond_ r). case_cmp; lia.
Qed.

(** ** Pushes followed by pops *)

Lemma pushed_pushes_pops (items : list T) (k : nat) :
  pushed ((Push <$> items) ++ replicate k Pop) = items ∧
  pops ((Push <$> items) ++ replicate k (@Pop T)) = k.
Proof.
  induction items as [|x items [IH1 IH2]]; cbn.
  - induction k as [|k [IH1 IH2]]; cbn; [done|]. by rewrite IH1, IH2.
  - by rewrite IH1, IH2.
Qed.

Lemma respects_pops r q (k : nat) :
  holds r q → (k ≤ length q)%nat → respects r (replicate k Pop) = true.
Proof.
  revert r q. induction k as [|k IH]; intros r q Hr Hk; [done|]. cbn.
  destruct (empty r) eqn:He.
  { apply (holds_empty _ _ Hr) in He. subst q. cbn in Hk. lia. }
  destruct (holds_pop _ _ Hr He) as (x & q' & r' & -> & -> & Hr'). cbn.
  apply (IH r' q' Hr'). cbn in Hk. lia.
Qed.

Lemma respects_pushes_pops r q (items : list T) (k : nat) :
  holds r q → Z.of_nat (length q + length items) ≤ capacity_ r →
  (k ≤ length q + length items)%nat →
  respects r ((Push <$> items) ++ replicate k Pop) = true.
Proof.
  revert r q. induction items as [|x items IH]; intros r q Hr Hlen Hk; cbn.
  - eapply respects_pops; [done|]. cbn in Hk. lia.
  - cbn [length] in *.
    rewrite (holds_not_full _ _ Hr) by lia. cbn.
    apply (IH _ (q ++ [x])).
    + apply holds_push; [done|]. eapply holds_not_full; [done|lia].
    + rewrite push_capacity, length_app. cbn. lia.
    + rewrite length_app. cbn. lia.
Qed.

End Objects.

(** * Further properties of the operations *)

Section MoreProperties.

Context {T : Type}.

Implicit Types (r : ring T) (q : list T).

(** X1.  In every state reached through the public operations (the range
    [push] included), [size()] lies between 0 and [capacity()], [empty()]
    holds exactly when [size()] is 0, and [full()] exactly when [size()] is
    [capacity()]. *)
Theorem queries_agree (T_from_pointer : ptr → T) r :
  reachable_bulk T_from_pointer r →
  0 ≤ size r ≤ capacity r ∧
  (empty r = true ↔ size r = 0) ∧
  (full r = true ↔ size r = capacity r).
Proof.
  intros Hr. apply reachable_bulk_wf in Hr as Hwf.
  rewrite (size_count _ Hwf). destruct Hwf as [Hc Hl Hs Hu].
  unfold empty, full, capacity, count, data_begin in *.
  split_and!; [case_cmp; lia..| |]; case_cmp; split; intros; try done; lia.
Qed.

(** X2.  [push] on a ring that is not full puts the value behind the
    elements already there: the values that successive [pop]s return are
    the old ones followed by the new one; [size()] grows by one and
    [capacity()] stays. *)
Theorem push_appends r (x : T) :
  reachable r → full r = false →
  ∃ q,
    pop_all r = Some q ∧
    pop_all (push r x) = Some (q ++ [x]) ∧
    size (push r x) = size r + 1 ∧
    capacity (push r x) = capacity r.
Proof.
  intros Hr Hf. destruct (reachable_holds _ Hr) as [q Hq].
  pose proof (holds_push _ _ x Hq Hf) as Hq'.
  exists q. rewrite (pop_all_holds _ _ Hq), (pop_all_holds _ _ Hq').
  rewrite (holds_size _ _ Hq), (holds_size _ _ Hq'), length_app.
  unfold capacity. rewrite push_capacity. cbn. split_and!; try done; lia.
Qed.

(** X3.  [pop] on a ring that is not empty returns: it gives the front
    element, the values that further [pop]s return are the others in the
    same order, [size()] drops by one and [capacity()] stays. *)
Theorem pop_takes_front r :
  reachable r → empty r = false →
  ∃ x q r',
    pop r = Returned x r' ∧
    pop_all r = Some (x :: q) ∧
    pop_all r' = Some q ∧
    size r' = size r - 1 ∧
    capacity r' = capacity r.
Proof.
  intros Hr He. destruct (reachable_holds _ Hr) as [q Hq].
  destruct (holds_pop _ _ Hq He) as (x & q' & r' & -> & Hpop & Hq').
  exists x, q', r'.
  rewrite (pop_all_holds _ _ Hq), (pop_all_holds _ _ Hq').
  rewrite (holds_size _ _ Hq), (holds_size _ _ Hq').
  unfold capacity. rewrite (pop_capacity _ _ _ Hpop). cbn.
  split_and!; try done; lia.
Qed.

(** X4.  [push] on a full ring with storage, against its precondition,
    constructs the value over the front element and leaves a ring that holds
    the new value alone: [size()] is 1 and the next [pop] returns it. *)
Theorem push_on_full_keeps_only_new r (x : T) :
  reachable r → full r = true → 0 < capacity r →
  size (push r x) = 1 ∧
  pop_all (push r x) = Some [x] ∧
  objects (push r x) !! lower_bond_ r = Some x.
Proof.
  intros Hr Hf Hc. destruct (reachable_holds _ Hr) as [q (Hwf & _)].
  pose proof (holds_push_full r x Hwf Hf Hc) as Hq'.
  rewrite (holds_size _ _ Hq'), (pop_all_holds _ _ Hq').
  split_and!; try done.
  destruct Hwf as [Hcap Hl Hs Hu]. destruct r as [c e l u m].
  unfold full, push, unset_empty, place_back, capacity in *; cbn in *.
  apply Z.eqb_eq in Hf. subst u.
  destruct (Z.eqb_spec l e); [lia|]. cbn. apply lookup_insert_eq.
Qed.

(** X5.  The range [push] on a range that is not empty and no longer than
    the free space returns, and puts one value per position of the range
    behind the elements already there, in range order: the value built from
    the position itself.  [size()] grows by the length of the range. *)
Theorem push_range_appends (T_from_pointer : ptr → T) r (b e : Z) :
  reachable r → b < e → e - b ≤ capacity r - size r →
  ∃ q r',
    push_range T_from_pointer r b e = Returned tt r' ∧
    pop_all r = Some q ∧
    pop_all r' = Some (q ++ (T_from_pointer <$> seqZ b (e - b))) ∧
    size r' = size r + (e - b).
Proof.
  intros Hr Hlt Hlen. destruct (reachable_holds _ Hr) as [q Hq].
  rewrite (holds_size _ _ Hq) in *. unfold capacity in Hlen.
  assert (Hitems : Z.of_nat (length (range_items T_from_pointer b e)) = e - b).
  { unfold range_items. rewrite length_fmap, length_seqZ. lia. }
  assert (Hq' : holds (push_each r (range_items T_from_pointer b e))
                  (q ++ range_items T_from_pointer b e)).
  { apply holds_push_each; [done|]. lia. }
  exists q, (push_each r (range_items T_from_pointer b e)).
  rewrite push_range_as_pushes by lia.
  rewrite (pop_all_holds _ _ Hq), (pop_all_holds _ _ Hq').
  rewrite (holds_size _ _ Hq'), length_app.
  split_and!; try done. lia.
Qed.

(** X6.  [reserve(n)] with [n] above [size()] and other than [capacity()],
    on a ring that holds elements, returns a ring of capacity [n] with the
    same [size()] whose [pop]s return the same values; the elements lie in
    one run that does not wrap, from the first slot of the new storage, in
    front-to-back order, also when they wrapped before. *)
Theorem reserve_with_room_is_one_run r (n a : Z) :
  reachable r →
  0 < size r < n → n < size_modulus → n ≠ capacity r →
  fresh r n (Some a) →
  ∃ q r',
    reserve r n (Some a) = Returned tt r' ∧
    capacity r' = n ∧ size r' = size r ∧
    pop_all r = Some q ∧ pop_all r' = Some q ∧
    lower_bond_ r' = a ∧ upper_bond_ r' = a + size r ∧
    data_end_ r' = a + n ∧
    ∀ (i : nat) x, q !! i = Some x → objects r' !! (a + Z.of_nat i) = Some x.
Proof.
  intros Hr Hsize Hn Hcap Hfresh. destruct (reachable_holds _ Hr) as [q Hq].
  rewrite (holds_size _ _ Hq) in *. unfold capacity in *.
  destruct (reserve_room r q n (Some a) Hq) as (r' & Hres & Hc' & Hq' & _);
    [lia | done | done |].
  pose proof Hq as (Hwf & Hcount & Hobj).
  destruct (reserve_spec r n (Some a) r' Hwf)
    as (d & Hd & _ & He' & Hl' & Hu' & Hmoved); [lia | done | done | done |].
  destruct (Z.eqb_spec n 0); [lia|]. injection Hd as <-.
  assert (Hue : upper_bond_ r ≠ data_end_ r).
  { intros Hue. unfold count in Hcount. rewrite Hue, Z.eqb_refl in Hcount. lia. }
  destruct (Z.eqb_spec (upper_bond_ r) (data_end_ r)); [done|].
  rewrite <- Hcount in Hu', Hmoved.
  replace (Z.min (Z.of_nat (length q)) n) with (Z.of_nat (length q))
    in Hu', Hmoved by lia.
  exists q, r'.
  rewrite (pop_all_holds _ _ Hq), (pop_all_holds _ _ Hq'), (holds_size _ _ Hq').
  split_and!; try done.
  intros i x Hi. pose proof (lookup_lt_Some _ _ _ Hi).
  rewrite Hmoved by lia. by apply Hobj.
Qed.

(** X7.  [reserve(n)] on an empty ring returns an empty ring of capacity
    [n], which is not full unless [n] is 0. *)
Theorem reserve_of_empty_ring r (n : Z) alloc :
  reachable r → empty r = true →
  0 ≤ n < size_modulus → fresh r n alloc →
  (n ≠ 0 → capacity r ≠ n → is_Some alloc) →
  ∃ r',
    reserve r n alloc = Returned tt r' ∧
    capacity r' = n ∧ empty r' = true ∧ size r' = 0 ∧
    (0 < n → full r' = false).
Proof.
  intros Hr He Hn Hfresh Halloc. destruct (reachable_holds _ Hr) as [q Hq].
  apply (holds_empty _ _ Hq) in He. subst q.
  destruct (holds_reserve r [] n alloc Hq Hn Hfresh Halloc)
    as (r' & Hres & Hc' & _ & Hq').
  assert (Hq'' : holds r' []).
  { destruct (capacity_ r =? n); [done|].
    by destruct (Z.of_nat (length (@nil T)) <? n). }
  exists r'. rewrite (holds_size _ _ Hq'').
  split_and!; try done; [by apply (holds_empty _ _ Hq'')|].
  intros Hpos. apply (holds_not_full _ _ Hq''). cbn. lia.
Qed.

(** X8.  In every state reached from a constructor by [push], [pop] and
    [reserve] with room, an address holds an object exactly when it is a
    slot between [lower_bond_] and [upper_bond_], round the storage. *)
Theorem objects_exactly_in_live_slots r (a : Z) :
  reachable_with_room r →
  is_Some (objects r !! a) ↔ live_slot r a.
Proof.
  intros Hr. pose proof (reachable_with_room_tidy _ Hr) as Ht.
  apply reachable_with_room_reachable, reachable_holds in Hr as [q Hq].
  split.
  - intros [x Hx]. by eapply Ht.
  - intros Hlive. pose proof Hq as (Hwf & _).
    destruct (live_slot_slot _ _ Hwf Hlive) as (i & Hi & <-).
    by eapply holds_slot.
Qed.

(** X9.  On such a ring the destructor destroys exactly the elements that
    successive [pop]s would have returned, each once and front first, and
    when it releases the storage no object is left. *)
Theorem destructor_destroys_every_element r :
  reachable_with_room r →
  ∃ q,
    pop_all r = Some q ∧
    destroy_elements r = Some (q, ∅) ∧
    ring_destructor r = Some (q, ∅).
Proof.
  intros Hr. pose proof (reachable_with_room_tidy _ Hr) as Ht.
  apply reachable_with_room_reachable, reachable_holds in Hr as [q Hq].
  destruct (destroy_elements_holds _ _ Hq) as (m' & Hrun & Hin & Hout).
  assert (m' = ∅) as ->.
  { apply map_eq. intros a. rewrite lookup_empty.
    destruct (objects r !! a) as [x|] eqn:Ha.
    - apply Hin. by eapply Ht.
    - destruct (m' !! a) as [y|] eqn:Ha'; [|done].
      assert (¬ live_slot r a) as Hdead
        by (intros Hlive; by rewrite (Hin a Hlive) in Ha').
      rewrite (Hout a Hdead) in Ha'. congruence. }
  exists q. rewrite (pop_all_holds _ _ Hq). unfold ring_destructor.
  rewrite Hrun. cbn. unfold deallocate. by rewrite map_filter_empty.
Qed.

(** X10.  After [reserve(n)] with [0 < n ≤ size()] and [n] other than
    [capacity()], the [n] oldest elements are constructed at the start of
    the new storage, but the destructor destroys none of them: they are
    still there when it releases the storage. *)
Theorem reserve_without_room_leaks r (n a : Z) :
  reachable r →
  0 < n ≤ size r → n ≠ capacity r →
  fresh r n (Some a) →
  ∃ q r',
    reserve r n (Some a) = Returned tt r' ∧
    pop_all r = Some q ∧
    destroy_elements r' = Some ([], objects r') ∧
    ∀ (i : nat) x,
      Z.of_nat i < n → q !! i = Some x → objects r' !! (a + Z.of_nat i) = Some x.
Proof.
  intros Hr Hn Hcap Hfresh. destruct (reachable_holds _ Hr) as [q Hq].
  rewrite (holds_size _ _ Hq) in *. unfold capacity in *.
  destruct (reserve_no_room r q n a Hq) as (r' & Hres & Hc' & Hq');
    [lia | done | done |].
  pose proof Hq as (Hwf & Hcount & Hobj).
  pose proof (holds_length_bound _ _ Hq). pose proof (wf_capacity _ Hwf).
  destruct (reserve_spec r n (Some a) r' Hwf) as (d & Hd & _ & _ & _ & _ & Hmoved);
    [lia | done | done | done |].
  destruct (Z.eqb_spec n 0); [lia|]. injection Hd as <-.
  exists q, r'. rewrite (pop_all_holds _ _ Hq).
  split_and!; try done.
  - pose proof (proj2 (holds_empty _ _ Hq') eq_refl) as He'.
    unfold empty in He'. unfold destroy_elements. by rewrite He'.
  - intros i x Hi Hx. rewrite Hmoved by lia. by apply Hobj.
Qed.

(** X11.  On an empty ring reached from a constructor by [push], [pop] and
    [reserve] with room, [pop], against its precondition, reads a slot in
    which no object lives. *)
Theorem pop_on_empty_is_undefined r :
  reachable_with_room r → empty r = true → pop r = Undefined.
Proof.
  intros Hr He. pose proof (reachable_with_room_tidy _ Hr) as Ht.
  unfold pop. destruct (objects r !! lower_bond_ r) as [x|] eqn:Hx; [|done].
  apply Ht in Hx as [Hue _]. unfold empty in He. apply Z.eqb_eq in He. done.
Qed.

(** X12.  Round trip.  On a ring reached from a constructor by [push],
    [pop] and [reserve] with room, pushing a list of values that fits and
    then popping as many times as the ring then has elements returns the
    elements that were there followed by the values pushed, in order, and
    leaves the ring empty with no object constructed anywhere. *)
Theorem push_then_pop_round_trip r (items : list T) :
  reachable_with_room r →
  Z.of_nat (length items) ≤ capacity r - size r →
  ∃ q r',
    pop_all r = Some q ∧
    run r ((Push <$> items) ++ replicate (length q + length items) Pop)
      = Some (q ++ items, r') ∧
    empty r' = true ∧ size r' = 0 ∧ objects r' = ∅.
Proof.
  intros Hroom Hlen.
  pose proof (reachable_with_room_reachable _ Hroom) as Hr.
  destruct (reachable_holds _ Hr) as [q Hq].
  rewrite (holds_size _ _ Hq) in Hlen. unfold capacity in Hlen.
  set (ops := (Push <$> items) ++ replicate (length q + length items) Pop).
  assert (Hok : respects r ops = true)
    by (apply (respects_pushes_pops r q); [done | lia | lia]).
  destruct (run_holds _ _ _ Hq Hok) as (outs & r' & q' & Hrun & Hq' & Heq & Hn).
  destruct (pushed_pushes_pops items (length q + length items)) as [Hp Hk].
  fold ops in Hp, Hk. rewrite Hp in Heq. rewrite Hk in Hn.
  assert (q' = []) as ->.
  { apply length_zero_iff_nil. apply (f_equal length) in Heq.
    rewrite !length_app in Heq. lia. }
  rewrite app_nil_r in Heq. subst outs.
  exists q, r'. rewrite (pop_all_holds _ _ Hq), (holds_size _ _ Hq').
  pose proof (proj2 (holds_empty _ _ Hq') eq_refl) as He.
  split_and!; try done.
  pose proof (reachable_with_room_tidy _
                (run_reachable_with_room _ _ _ _ Hroom Hok Hrun)) as Ht.
  apply map_eq. intros a. rewrite lookup_empty.
  destruct (objects r' !! a) as [x|] eqn:Ha; [|done].
  apply Ht in Ha as [Hue _]. unfold empty in He. apply Z.eqb_eq in He. done.
Qed.

End MoreProperties.

(** * The further properties at concrete rings *)

Lemma ring3_with_room : reachable_with_room ring3.
Proof. by apply (room_sized 3 100). Qed.

Lemma wrapped_ring_with_room : reachable_with_room wrapped_ring.
Proof.
  unfold wrapped_ring, ring_after.
  destruct (run ring3 _) as [[outs r']|] eqn:Hrun; [|apply ring3_with_room].
  eapply run_reachable_with_room; [apply ring3_with_room | | exact Hrun].
  reflexivity.
Qed.

Lemma full_ring3_reachable : reachable (push_each ring3 [1; 2; 3]).
Proof. do 3 (apply reach_push; [|reflexivity]). apply ring3_reachable. Qed.

Lemma regrown_ring_with_room :
  reachable_with_room (reserved wrapped_ring 5 200).
Proof.
  apply (room_reserve wrapped_ring 5 (Some 200));
    [apply wrapped_ring_with_room | done | by left; vm_compute
    | by vm_compute; right | by vm_compute].
Qed.

Lemma queries_agree_witness :
  0 ≤ size (push_each ring3 [500; 501]) ≤ capacity (push_each ring3 [500; 501]) ∧
  (empty (push_each ring3 [500; 501]) = true ↔
     size (push_each ring3 [500; 501]) = 0) ∧
  (full (push_each ring3 [500; 501]) = true ↔
     size (push_each ring3 [500; 501]) = capacity (push_each ring3 [500; 501])).
Proof. apply (queries_agree (λ p : Z, p)). apply bulk_pushed_reachable. Defined.

Lemma push_appends_witness :
  ∃ q,
    pop_all wrapped_ring = Some q ∧
    pop_all (push wrapped_ring 5) = Some (q ++ [5]) ∧
    size (push wrapped_ring 5) = size wrapped_ring + 1 ∧
    capacity (push wrapped_ring 5) = capacity wrapped_ring.
Proof.
  apply push_appends; [apply wrapped_ring_reachable | reflexivity].
Defined.

Lemma pop_takes_front_witness :
  ∃ x q r',
    pop wrapped_ring = Returned x r' ∧
    pop_all wrapped_ring = Some (x :: q) ∧
    pop_all r' = Some q ∧
    size r' = size wrapped_ring - 1 ∧
    capacity r' = capacity wrapped_ring.
Proof.
  apply pop_takes_front; [apply wrapped_ring_reachable | reflexivity].
Defined.

Lemma push_on_full_keeps_only_new_witness :
  size (push (push_each ring3 [1; 2; 3]) 9) = 1 ∧
  pop_all (push (push_each ring3 [1; 2; 3]) 9) = Some [9] ∧
  objects (push (push_each ring3 [1; 2; 3]) 9)
    !! lower_bond_ (push_each ring3 [1; 2; 3]) = Some 9.
Proof.
  apply push_on_full_keeps_only_new;
    [apply full_ring3_reachable | reflexivity | reflexivity].
Defined.

Lemma push_range_appends_witness :
  ∃ q r',
    push_range (λ p : Z, p) wrapped_ring 500 501 = Returned tt r' ∧
    pop_all wrapped_ring = Some q ∧
    pop_all r' = Some (q ++ ((λ p : Z, p) <$> seqZ 500 (501 - 500))) ∧
    size r' = size wrapped_ring + (501 - 500).
Proof.
  apply push_range_appends;
    [apply wrapped_ring_reachable | reflexivity | by vm_compute].
Defined.

Lemma reserve_with_room_is_one_run_witness :
  ∃ q r',
    reserve wrapped_ring 5 (Some 200) = Returned tt r' ∧
    capacity r' = 5 ∧ size r' = size wrapped_ring ∧
    pop_all wrapped_ring = Some q ∧ pop_all r' = Some q ∧
    lower_bond_ r' = 200 ∧ upper_bond_ r' = 200 + size wrapped_ring ∧
    data_end_ r' = 200 + 5 ∧
    ∀ (i : nat) x, q !! i = Some x → objects r' !! (200 + Z.of_nat i) = Some x.
Proof.
  apply reserve_with_room_is_one_run;
    [apply wrapped_ring_reachable | by vm_compute | reflexivity
    | by vm_compute | by vm_compute; right].
Defined.

Lemma reserve_of_empty_ring_witness :
  ∃ r',
    reserve ring3 5 (Some 200) = Returned tt r' ∧
    capacity r' = 5 ∧ empty r' = true ∧ size r' = 0 ∧
    (0 < 5 → full r' = false).
Proof.
  apply reserve_of_empty_ring;
    [apply ring3_reachable | reflexivity | done | by vm_compute; right | done].
Defined.

Lemma objects_exactly_in_live_slots_witness :
  is_Some (objects (reserved wrapped_ring 5 200) !! 201) ↔
  live_slot (reserved wrapped_ring 5 200) 201.
Proof.
  apply objects_exactly_in_live_slots. apply regrown_ring_with_room.
Defined.

Lemma destructor_destroys_every_element_witness :
  ∃ q,
    pop_all (reserved wrapped_ring 5 200) = Some q ∧
    destroy_elements (reserved wrapped_ring 5 200) = Some (q, ∅) ∧
    ring_destructor (reserved wrapped_ring 5 200) = Some (q, ∅).
Proof.
  apply destructor_destroys_every_element. apply regrown_ring_with_room.
Defined.

Lemma reserve_without_room_leaks_witness :
  ∃ q r',
    reserve (push_each ring3 [1; 2; 3]) 2 (Some 200) = Returned tt r' ∧
    pop_all (push_each ring3 [1; 2; 3]) = Some q ∧
    destroy_elements r' = Some ([], objects r') ∧
    ∀ (i : nat) x,
      Z.of_nat i < 2 → q !! i = Some x → objects r' !! (200 + Z.of_nat i) = Some x.
Proof.
  apply reserve_without_room_leaks;
    [apply full_ring3_reachable | by vm_compute | by vm_compute
    | by vm_compute; right].
Defined.

Lemma pop_on_empty_is_undefined_witness : pop ring3 = Undefined.
Proof.
  apply pop_on_empty_is_undefined; [apply ring3_with_room | reflexivity].
Defined.

Lemma push_then_pop_round_trip_witness :
  ∃ q r',
    pop_all wrapped_ring = Some q ∧
    run wrapped_ring
      ((Push <$> [7]) ++ replicate (length q + length [7]) Pop)
      = Some (q ++ [7], r') ∧
    empty r' = true ∧ size r' = 0 ∧ objects r' = ∅.
Proof.
  apply push_then_pop_round_trip;
    [apply wrapped_ring_with_room | by vm_compute].
Defined.
